(** * Particle morpher: a shallow embedding of [src/main.ts],
      [src/managers/UIManager.ts] and the vertex shader of [src/shaders]

    The TypeScript class [ParticleMorpher] is a record of its fields and every
    method is a function from state to state.  Numbers are exact rationals
    ([Q]): the rounding of IEEE doubles and of [Float32Array] stores is not
    represented.  Two pieces of the environment the class drives are part of
    the state: the tweens GSAP keeps on its global timeline, and the number of
    [Math.random()] calls made so far (the values themselves come from an
    oracle [random : nat -> Q]).  The count starts when [init] does and
    covers the class's own calls and those of the three.js constructors
    [setupParticles] runs; what the model loader and its sampler draw while
    the files load is left out, the sampler being a parameter of [Loader]. *)

From Stdlib Require Import QArith Qminmax Qround ZArith List String Bool Lia Lqa.
Import ListNotations.

Local Open Scope Q_scope.

(** ** JavaScript values *)

Module Js.

(** [a < b] on numbers, as a boolean. *)
Definition Qlt_bool (a b : Q) : bool := negb (Qle_bool b a).

(** A [Float32Array]: a fixed-length sequence of numbers. *)
Definition Float32Array := list Q.

(** A plain object used as a dictionary ([{ [key: string]: T }]): its own
    string keys in insertion order, which is the order [Object.keys]
    reports for keys that are not array indices. *)
Definition JsObject (A : Type) := list (string * A).

(** [o[k]]: [None] stands for [undefined].  Only own keys are looked up:
    the names the program passes are those of its shape buttons and the keys
    [Object.keys] returned, none of which [Object.prototype] defines. *)
Fixpoint obj_get {A} (o : JsObject A) (k : string) : option A :=
  match o with
  | [] => None
  | (k', v) :: rest => if String.eqb k' k then Some v else obj_get rest k
  end.

(** [o[k] = v]: an existing key keeps its place, a new key goes last. *)
Fixpoint obj_set {A} (o : JsObject A) (k : string) (v : A) : JsObject A :=
  match o with
  | [] => [(k, v)]
  | (k', v') :: rest =>
      if String.eqb k' k then (k', v) :: rest else (k', v') :: obj_set rest k v
  end.

Definition Object_keys {A} (o : JsObject A) : list string := map fst o.

(** [Array.prototype.indexOf]: the first index holding [x], or [-1]. *)
Fixpoint indexOf_from (l : list string) (x : string) (i : Z) : Z :=
  match l with
  | [] => (-1)%Z
  | y :: rest => if String.eqb y x then i else indexOf_from rest x (i + 1)%Z
  end.

Definition indexOf (l : list string) (x : string) : Z := indexOf_from l x 0%Z.

(** The [%] operator on integers: the remainder takes the sign of the
    dividend. *)
Definition rem (a b : Z) : Z := Z.rem a b.

(** [arr[i]] for an index the caller computed; ["undefined"] is what a
    string parameter receives from a hole. *)
Definition at_index (l : list string) (i : Z) : string :=
  if (i <? 0)%Z then "undefined"%string
  else nth (Z.to_nat i) l "undefined"%string.

End Js.
Import Js.

(** ** Settings ([UIManager.ts]) *)

Record ParticleSettings := mkSettings {
  particleCount : nat;
  particleSize : Q;
  animationSpeed : Q;
  autoRotate : bool;
  morphDuration : Q;
  autoMorph : bool;
  autoMorphDuration : Q;
  interactionRadius : Q;
  interactionStrength : Q
}.

Definition DEFAULT_SETTINGS : ParticleSettings :=
  {| particleCount := 150 * 100;
     particleSize := 12 # 10;
     animationSpeed := 1;
     autoRotate := true;
     morphDuration := 25 # 10;
     autoMorph := true;
     autoMorphDuration := 5000;
     interactionRadius := 3;
     interactionStrength := 10 |}.

Definition set_animationSpeed (v : Q) (s : ParticleSettings) : ParticleSettings :=
  {| particleCount := particleCount s;
     particleSize := particleSize s;
     animationSpeed := v;
     autoRotate := autoRotate s;
     morphDuration := morphDuration s;
     autoMorph := autoMorph s;
     autoMorphDuration := autoMorphDuration s;
     interactionRadius := interactionRadius s;
     interactionStrength := interactionStrength s |}.

Definition set_autoMorph (b : bool) (s : ParticleSettings) : ParticleSettings :=
  {| particleCount := particleCount s;
     particleSize := particleSize s;
     animationSpeed := animationSpeed s;
     autoRotate := autoRotate s;
     morphDuration := morphDuration s;
     autoMorph := b;
     autoMorphDuration := autoMorphDuration s;
     interactionRadius := interactionRadius s;
     interactionStrength := interactionStrength s |}.

(** ** GSAP tweens

    [gsap.to(target, { duration, endArray, ease, onUpdate, onComplete })]
    puts a tween on the global timeline.  The call in [morphTo] passes no
    [overwrite] option and the program sets no default for it, so GSAP's
    default [overwrite: false] applies: tweens already running on the same
    target are left alone.  A tween reads its start values the first time it
    renders, and its last render uses ratio 1. *)

Record Tween := mkTween {
  tw_shape : string;               (* [shape] captured by [onComplete] *)
  tw_endArray : Float32Array;      (* [endArray] *)
  tw_duration : Q;                 (* seconds *)
  tw_time : Q;                     (* seconds played so far *)
  tw_start : option Float32Array   (* start values, once initialised *)
}.

Definition lerp (s e ratio : Q) : Q := s + (e - s) * ratio.

(** The [endArray] plugin: index [i] of the target moves from its start value
    to [endArray[i]].  An index whose start value is its end value already
    gets no property tween, so this tween never writes it and whatever else
    writes the target there shows through; indices the end array does not
    have are not touched either. *)
Fixpoint write_values (target start endArray : Float32Array) (ratio : Q)
  : Float32Array :=
  match target, start, endArray with
  | t :: ts, s :: ss, e :: es =>
      (if Qeq_bool s e then t else lerp s e ratio)
        :: write_values ts ss es ratio
  | _, _, _ => target
  end.

(** ** The class [ParticleMorpher] *)

Record ParticleMorpher := mkMorpher {
  settings : ParticleSettings;
  (* [particles.geometry.attributes.position.array]; [None] while
     [particles] is null *)
  particles : option Float32Array;
  models : JsObject Float32Array;
  currentShape : string;
  isTransitioning : bool;
  lastMorphTime : Q;
  (* environment *)
  activeTweens : list Tween;   (* GSAP's timeline, oldest first *)
  randomCalls : nat;           (* [Math.random()] calls made so far *)
  console : list string        (* shapes logged by [onComplete], newest first *)
}.

Definition set_settings (v : ParticleSettings) (m : ParticleMorpher) :=
  mkMorpher v (particles m) (models m) (currentShape m) (isTransitioning m)
    (lastMorphTime m) (activeTweens m) (randomCalls m) (console m).

Definition set_particles (v : option Float32Array) (m : ParticleMorpher) :=
  mkMorpher (settings m) v (models m) (currentShape m) (isTransitioning m)
    (lastMorphTime m) (activeTweens m) (randomCalls m) (console m).

Definition set_models (v : JsObject Float32Array) (m : ParticleMorpher) :=
  mkMorpher (settings m) (particles m) v (currentShape m) (isTransitioning m)
    (lastMorphTime m) (activeTweens m) (randomCalls m) (console m).

Definition set_currentShape (v : string) (m : ParticleMorpher) :=
  mkMorpher (settings m) (particles m) (models m) v (isTransitioning m)
    (lastMorphTime m) (activeTweens m) (randomCalls m) (console m).

Definition set_isTransitioning (v : bool) (m : ParticleMorpher) :=
  mkMorpher (settings m) (particles m) (models m) (currentShape m) v
    (lastMorphTime m) (activeTweens m) (randomCalls m) (console m).

Definition set_lastMorphTime (v : Q) (m : ParticleMorpher) :=
  mkMorpher (settings m) (particles m) (models m) (currentShape m)
    (isTransitioning m) v (activeTweens m) (randomCalls m) (console m).

Definition set_activeTweens (v : list Tween) (m : ParticleMorpher) :=
  mkMorpher (settings m) (particles m) (models m) (currentShape m)
    (isTransitioning m) (lastMorphTime m) v (randomCalls m) (console m).

Definition set_randomCalls (v : nat) (m : ParticleMorpher) :=
  mkMorpher (settings m) (particles m) (models m) (currentShape m)
    (isTransitioning m) (lastMorphTime m) (activeTweens m) v (console m).

Definition set_console (v : list string) (m : ParticleMorpher) :=
  mkMorpher (settings m) (particles m) (models m) (currentShape m)
    (isTransitioning m) (lastMorphTime m) (activeTweens m) (randomCalls m) v.

Definition explode : string := "explode".

(** What the DOM sends to the class. *)
Inductive Event :=
| ShapeClick (shape : string)               (* a shape button *)
| AutoMorphChange (checked : bool) (now : Q) (* the auto-morph checkbox *)
| SpeedInput (val : Q)                      (* the speed slider *)
| GsapTick (dt : Q)                         (* GSAP's ticker, [dt] seconds *)
| AnimationFrame (now : Q).                 (* [animate], at [performance.now()] *)

Section Model.

(** [random k] is what the [k]-th call of [Math.random()] returns. *)
Variable random : nat -> Q.

(** The easing curve ["expo.inOut"], on progress strictly below 1. *)
Variable ease : Q -> Q.

(** [(Math.random() - 0.5) * 500] *)
Definition spread (r : Q) : Q := (r - (1 # 2)) * 500.

(** The loop shared by [setupParticles] and [getExplodePositions]:
    iteration [i] fills [positions[i*3 .. i*3+2]] from three calls of
    [Math.random()]; [c] counts the calls made before it. *)
Fixpoint fill_positions (count c : nat) : Float32Array :=
  match count with
  | O => []
  | S k =>
      spread (random c) :: spread (random (c + 1)) :: spread (random (c + 2))
        :: fill_positions k (c + 3)
  end.

Definition getExplodePositions (m : ParticleMorpher)
  : Float32Array * ParticleMorpher :=
  let n := particleCount (settings m) in
  (fill_positions n (randomCalls m),
   set_randomCalls (randomCalls m + 3 * n) m).

(** [gsap.to(currentPositions, {...})] *)
Definition gsap_to (shape : string) (targetPositions : Float32Array)
           (m : ParticleMorpher) : ParticleMorpher :=
  let tw := {| tw_shape := shape;
               tw_endArray := targetPositions;
               tw_duration :=
                 morphDuration (settings m) / animationSpeed (settings m);
               tw_time := 0;
               tw_start := None |} in
  set_activeTweens (activeTweens m ++ [tw]) m.

Definition morphTo (shape : string) (m : ParticleMorpher) : ParticleMorpher :=
  if isTransitioning m && negb (String.eqb shape explode) then m
  else
    match particles m with
    | None => m
    | Some _ =>
        let m1 := set_isTransitioning true m in
        let '(targetPositions, m2) :=
          if String.eqb shape explode
          then let '(p, m') := getExplodePositions m1 in (Some p, m')
          else (obj_get (models m1) shape, m1) in
        match targetPositions with
        | None => set_isTransitioning false m2
        | Some target => gsap_to shape target m2
        end
    end.

(** The [onComplete] callback of the tween started for [shape]. *)
Definition onComplete (shape : string) (m : ParticleMorpher) : ParticleMorpher :=
  set_console (shape :: console m)
    (set_currentShape shape (set_isTransitioning false m)).

(** One render of one tween, [dt] seconds after its previous one.  The
    survivor, if any, is returned beside the state. *)
Definition tween_render (dt : Q) (tw : Tween) (m : ParticleMorpher)
  : ParticleMorpher * option Tween :=
  let buf := match particles m with Some b => b | None => [] end in
  let start := match tw_start tw with Some s => s | None => buf end in
  let t := tw_time tw + dt in
  let finished := Qle_bool (tw_duration tw) t in
  let ratio := if finished then 1 else ease (t / tw_duration tw) in
  let m1 :=
    set_particles
      (option_map (fun b => write_values b start (tw_endArray tw) ratio)
                  (particles m)) m in
  if finished then (onComplete (tw_shape tw) m1, None)
  else (m1, Some {| tw_shape := tw_shape tw;
                    tw_endArray := tw_endArray tw;
                    tw_duration := tw_duration tw;
                    tw_time := t;
                    tw_start := Some start |}).

Fixpoint render_all (dt : Q) (tws : list Tween) (m : ParticleMorpher)
  : ParticleMorpher * list Tween :=
  match tws with
  | [] => (m, [])
  | tw :: rest =>
      let '(m1, o) := tween_render dt tw m in
      let '(m2, rest') := render_all dt rest m1 in
      (m2, match o with Some tw' => tw' :: rest' | None => rest' end)
  end.

(** One tick of GSAP's ticker: every tween renders, oldest first. *)
Definition gsap_tick (dt : Q) (m : ParticleMorpher) : ParticleMorpher :=
  let '(m', tws) := render_all dt (activeTweens m) m in
  set_activeTweens tws m'.

Definition handleAutoMorph (now : Q) (m : ParticleMorpher) : ParticleMorpher :=
  if negb (autoMorph (settings m)) || isTransitioning m then m
  else if Qlt_bool (autoMorphDuration (settings m)) (now - lastMorphTime m)
  then
    let morphKeys := Object_keys (models m) in
    if (0 <? Z.of_nat (List.length morphKeys))%Z then
      let currentIndex := indexOf morphKeys (currentShape m) in
      let nextIndex :=
        Js.rem (currentIndex + 1) (Z.of_nat (List.length morphKeys)) in
      set_lastMorphTime now (morphTo (at_index morphKeys nextIndex) m)
    else m
  else m.

(** [updateStats] draws one random number per frame to decide whether to
    refresh the FPS label; the label itself is not part of the state. *)
Definition updateStats (m : ParticleMorpher) : ParticleMorpher :=
  set_randomCalls (randomCalls m + 1) m.

Definition animate (now : Q) (m : ParticleMorpher) : ParticleMorpher :=
  handleAutoMorph now (updateStats m).

(** The ["setting-update"] listener of [setupEvents], case
    ["autoMorphReset"]. *)
Definition onAutoMorphReset (now : Q) (m : ParticleMorpher) : ParticleMorpher :=
  match particles m with
  | None => m
  | Some _ => set_lastMorphTime now m
  end.

(** The [change] listener [UIManager.setupToggles] puts on the auto-morph
    checkbox; [settings] is the object shared with the class. *)
Definition onAutoMorphChange (checked : bool) (now : Q) (m : ParticleMorpher)
  : ParticleMorpher :=
  let m1 := set_settings (set_autoMorph checked (settings m)) m in
  if autoMorph (settings m1) then onAutoMorphReset now m1 else m1.

Definition onSpeedInput (val : Q) (m : ParticleMorpher) : ParticleMorpher :=
  set_settings (set_animationSpeed val (settings m)) m.

Definition step (ev : Event) (m : ParticleMorpher) : ParticleMorpher :=
  match ev with
  | ShapeClick shape => morphTo shape m
  | AutoMorphChange checked now => onAutoMorphChange checked now m
  | SpeedInput val => onSpeedInput val m
  | GsapTick dt => gsap_tick dt m
  | AnimationFrame now => animate now m
  end.

Definition run (evs : list Event) (m : ParticleMorpher) : ParticleMorpher :=
  fold_left (fun acc ev => step ev acc) evs m.

(** Field initialisers and the constructor, for the settings [s] (the
    program clones [DEFAULT_SETTINGS]). *)
Definition construct (s : ParticleSettings) : ParticleMorpher :=
  {| settings := s;
     particles := None;
     models := [];
     currentShape := "queen";
     isTransitioning := false;
     lastMorphTime := 0;
     activeTweens := [];
     randomCalls := 0;
     console := [] |}.

(** three.js stamps every geometry, material and scene object it constructs
    with a UUID made from four calls of [Math.random()]. *)
Definition uuid_draws : nat := 4.

(** [setupParticles]: the geometry is constructed, the random start
    positions are filled in, then one [aRandom] per particle, and at the end
    the material and the [Points] object are constructed. *)
Definition setupParticles (m : ParticleMorpher) : ParticleMorpher :=
  let n := particleCount (settings m) in
  let first := (randomCalls m + uuid_draws)%nat in
  set_randomCalls (first + 3 * n + n + uuid_draws + uuid_draws)
    (set_particles (Some (fill_positions n first)) m).

(** [loadModels], given what the two [ModelLoader.load] promises resolve
    to ([None] for [null]). *)
Definition loadModels (queenPoints pawnPoints : option Float32Array)
           (m : ParticleMorpher) : ParticleMorpher :=
  let m1 := match queenPoints with
            | Some q => set_models (obj_set (models m) "queen" q) m
            | None => m
            end in
  match pawnPoints with
  | Some p => set_models (obj_set (models m1) "pawn" p) m1
  | None => m1
  end.

Definition init (queenPoints pawnPoints : option Float32Array)
           (m : ParticleMorpher) : ParticleMorpher :=
  morphTo "queen" (loadModels queenPoints pawnPoints (setupParticles m)).

(** The state at the end of [init] on a fresh object; the properties below
    follow the program from there, event by event. *)
Definition boot (s : ParticleSettings)
           (queenPoints pawnPoints : option Float32Array) : ParticleMorpher :=
  init queenPoints pawnPoints (construct s).

End Model.

(** ** The vertex shader ([vertexShader] in [src/shaders])

    GLSL vectors are records of rationals.  The built-ins [sin], [cos] and
    [sqrt] have no rational counterpart and are parameters; [distance],
    [normalize], [clamp] and [smoothstep] are the reference formulas of the
    GLSL specification, written over them. *)

Module Shader.

Record vec3 := mkVec3 { vx : Q; vy : Q; vz : Q }.
Record vec4 := mkVec4 { wx : Q; wy : Q; wz : Q; ww : Q }.
(** A [mat4] by its four columns. *)
Record mat4 := mkMat4 { col0 : vec4; col1 : vec4; col2 : vec4; col3 : vec4 }.

Record Uniforms := mkUniforms {
  modelMatrix : mat4;
  uMouse : vec3;
  uRadius : Q;
  uStrength : Q;
  uSize : Q;
  uTime : Q
}.

Definition xyz (v : vec4) : vec3 := mkVec3 (wx v) (wy v) (wz v).
Definition with_xyz (v : vec4) (p : vec3) : vec4 :=
  mkVec4 (vx p) (vy p) (vz p) (ww v).

Definition vadd (a b : vec3) : vec3 :=
  mkVec3 (vx a + vx b) (vy a + vy b) (vz a + vz b).
Definition vsub (a b : vec3) : vec3 :=
  mkVec3 (vx a - vx b) (vy a - vy b) (vz a - vz b).
Definition vscale (a : vec3) (k : Q) : vec3 :=
  mkVec3 (vx a * k) (vy a * k) (vz a * k).
Definition dot (a b : vec3) : Q := vx a * vx b + vy a * vy b + vz a * vz b.

(** [m * v] *)
Definition mat_mul (m : mat4) (v : vec4) : vec4 :=
  mkVec4
    (wx (col0 m) * wx v + wx (col1 m) * wy v + wx (col2 m) * wz v + wx (col3 m) * ww v)
    (wy (col0 m) * wx v + wy (col1 m) * wy v + wy (col2 m) * wz v + wy (col3 m) * ww v)
    (wz (col0 m) * wx v + wz (col1 m) * wy v + wz (col2 m) * wz v + wz (col3 m) * ww v)
    (ww (col0 m) * wx v + ww (col1 m) * wy v + ww (col2 m) * wz v + ww (col3 m) * ww v).

Definition clamp (x lo hi : Q) : Q := Qmin (Qmax x lo) hi.

Definition smoothstep (edge0 edge1 x : Q) : Q :=
  let t := clamp ((x - edge0) / (edge1 - edge0)) 0 1 in
  t * t * (3 - 2 * t).

Section Builtins.

Variables gl_sin gl_cos gl_sqrt : Q -> Q.

Definition length3 (v : vec3) : Q := gl_sqrt (dot v v).
Definition distance (a b : vec3) : Q := length3 (vsub a b).
Definition normalize (v : vec3) : vec3 := vscale v (/ length3 v).

(** [falloff] as [main] computes it for a vertex. *)
Definition falloff (u : Uniforms) (position : vec3) (aRandom : Q) : Q :=
  let worldPosition := mat_mul (modelMatrix u)
                         (mkVec4 (vx position) (vy position) (vz position) 1) in
  let dist := distance (xyz worldPosition) (uMouse u) in
  let noise := aRandom in
  smoothstep (uRadius u * ((12 # 10) + noise * (1 # 2))) 0 dist.

(** [main], up to the last value of [worldPosition]; the view and
    projection transforms that follow do not change it.  The shader's
    [rand] and its local [time] are declared and never used. *)
Definition main_worldPosition (u : Uniforms) (position : vec3) (aRandom : Q)
  : vec4 :=
  let pos := position in
  let worldPosition := mat_mul (modelMatrix u)
                         (mkVec4 (vx pos) (vy pos) (vz pos) 1) in
  let dist := distance (xyz worldPosition) (uMouse u) in
  let slowTime := uTime u * (2 # 10000) in
  let noise := aRandom in
  let falloff := smoothstep (uRadius u * ((12 # 10) + noise * (1 # 2))) 0 dist in
  if Qlt_bool 0 falloff then
    let randomDir :=
      mkVec3
        (gl_sin (vx pos * (15 # 100) + slowTime + noise * (628 # 100)))
        (gl_cos (vy pos * (15 # 100) + slowTime * (11 # 10) + noise * (628 # 100)))
        (gl_sin (vz pos * (15 # 100) + slowTime * (12 # 10) + noise * (628 # 100))) in
    let repelDir := normalize (vsub (xyz worldPosition) (uMouse u)) in
    let finalDir :=
      normalize (vadd (vscale repelDir (3 # 10)) (vscale randomDir (7 # 10))) in
    let displacement :=
      falloff * uStrength u
      * ((8 # 10) + gl_sin (uTime u * (1 # 1000) + noise * (628 # 100)) * (2 # 10)) in
    with_xyz worldPosition (vadd (xyz worldPosition) (vscale finalDir displacement))
  else worldPosition.

(** What the interaction field adds to the vertex's world position. *)
Definition interaction_displacement (u : Uniforms) (position : vec3)
           (aRandom : Q) : vec3 :=
  vsub (xyz (main_worldPosition u position aRandom))
       (xyz (mat_mul (modelMatrix u)
               (mkVec4 (vx position) (vy position) (vz position) 1))).

End Builtins.

End Shader.

(** ** Vocabulary of the properties *)

(** Seconds covered by a list of ticks. *)
Definition total_time (dts : list Q) : Q := fold_right Qplus 0 dts.

(** [dts] as ticker events. *)
Definition ticks (dts : list Q) : list Event := map GsapTick dts.

(** No tween is on the timeline and the flag is down. *)
Definition idle (m : ParticleMorpher) : Prop :=
  activeTweens m = [] /\ isTransitioning m = false.

(** [m'] is [m] after the completion callback for [shape] ran once and the
    timeline emptied; the fields the callback does not write are those of
    [m]. *)
Definition completed_with (shape : string) (m m' : ParticleMorpher) : Prop :=
  activeTweens m' = [] /\ isTransitioning m' = false /\
  currentShape m' = shape /\ console m' = shape :: console m /\
  settings m' = settings m /\ models m' = models m /\
  lastMorphTime m' = lastMorphTime m /\ randomCalls m' = randomCalls m.

(** The buffer holds exactly the numbers of [cloud]. *)
Definition buffer_is (m : ParticleMorpher) (cloud : Float32Array) : Prop :=
  exists buf, particles m = Some buf /\ Forall2 Qeq buf cloud.

(** Wherever the tween has nothing to move, its start value being its end
    value, the buffer is on the end value. *)
Fixpoint rests_on_target (buf start endArray : Float32Array) : Prop :=
  match buf, start, endArray with
  | b :: bs, s :: ss, e :: es =>
      (s == e -> b == e) /\ rests_on_target bs ss es
  | _, _, _ => True
  end.

(** No coordinate of [start] is on its end value yet. *)
Definition all_to_move (start endArray : Float32Array) : Prop :=
  Forall2 (fun s e => ~ s == e) start endArray.

(** The buffer as the tween behind [tw] on the timeline finds it in a tick
    of [dt] seconds: [tw] has rendered into [buf]. *)
Definition after_render (ease : Q -> Q) (dt : Q) (tw : Tween)
           (buf : Float32Array) : Float32Array :=
  write_values buf (match tw_start tw with Some s => s | None => buf end)
    (tw_endArray tw)
    (if Qle_bool (tw_duration tw) (tw_time tw + dt) then 1
     else ease ((tw_time tw + dt) / tw_duration tw)).

(** The buffer and the clouds of the library have one common length. *)
Definition same_length_as_buffer (m : ParticleMorpher) (cloud : Float32Array)
  : Prop :=
  exists buf, particles m = Some buf /\ List.length buf = List.length cloud.

(** The tween as it stands after a render that does not finish it. *)
Definition advanced (dt : Q) (buf : Float32Array) (tw : Tween) : Tween :=
  {| tw_shape := tw_shape tw;
     tw_endArray := tw_endArray tw;
     tw_duration := tw_duration tw;
     tw_time := tw_time tw + dt;
     tw_start := Some (match tw_start tw with Some s => s | None => buf end) |}.


(** An explode request made while a transition is running. *)
Definition overriding (m : ParticleMorpher) (ev : Event) : bool :=
  match ev with
  | ShapeClick shape => isTransitioning m && String.eqb shape explode
  | _ => false
  end.

(** States the program reaches from [m0]; with [strict] set, by events none
    of which is an overriding explode request. *)
Inductive reachable (random : nat -> Q) (ease : Q -> Q) (strict : bool)
          (m0 : ParticleMorpher) : ParticleMorpher -> Prop :=
| reach_start : reachable random ease strict m0 m0
| reach_step m ev :
    reachable random ease strict m0 m ->
    strict && overriding m ev = false ->
    reachable random ease strict m0 (step random ease ev m).



(** ** A small installation, for running the model

    Two particles instead of 15000; [Math.random()] cycles through the
    eighths, and the easing curve is a quadratic ease-in-out. *)

Module Sample.

Definition random (k : nat) : Q := Z.of_nat (k mod 8) # 8.

Definition ease (p : Q) : Q :=
  if Qle_bool p (1 # 2) then 2 * p * p else 1 - 2 * (1 - p) * (1 - p).

Definition settings2 : ParticleSettings :=
  {| particleCount := 2;
     particleSize := 12 # 10;
     animationSpeed := 1;
     autoRotate := true;
     morphDuration := 25 # 10;
     autoMorph := true;
     autoMorphDuration := 5000;
     interactionRadius := 3;
     interactionStrength := 10 |}.

Definition queen_cloud : Float32Array := [1; 2; 3; 4; 5; 6].
Definition pawn_cloud : Float32Array := [-1; -2; -3; 7; 8; 9].

(** After [init]: the first morph to the queen is under way. *)
Definition booted : ParticleMorpher :=
  boot random settings2 (Some queen_cloud) (Some pawn_cloud).

(** Three seconds later the queen stands. *)
Definition at_queen : ParticleMorpher :=
  run random ease [GsapTick 3] booted.

(** An installation with no particle at all. *)
Definition settings0 : ParticleSettings :=
  {| particleCount := 0;
     particleSize := 12 # 10;
     animationSpeed := 1;
     autoRotate := true;
     morphDuration := 25 # 10;
     autoMorph := true;
     autoMorphDuration := 5000;
     interactionRadius := 3;
     interactionStrength := 10 |}.

Definition empty_installation : ParticleMorpher :=
  boot random settings0 None None.

(** The queen standing, then an explode morph run to its end. *)
Definition after_explode : ParticleMorpher :=
  run random ease [ShapeClick explode; GsapTick 3] at_queen.

(** Stand-ins for the shader's built-ins: the integer square root and the
    first terms of the sine and cosine series. *)
Definition gl_sqrt (x : Q) : Q := inject_Z (Z.sqrt (Qfloor x)).
Definition gl_sin (x : Q) : Q := x - x * x * x / 6.
Definition gl_cos (x : Q) : Q := 1 - x * x / 2.

Definition identity : Shader.mat4 :=
  Shader.mkMat4 (Shader.mkVec4 1 0 0 0) (Shader.mkVec4 0 1 0 0)
                (Shader.mkVec4 0 0 1 0) (Shader.mkVec4 0 0 0 1).

(** The pointer at the origin, the default radius and strength. *)
Definition uniforms : Shader.Uniforms :=
  {| Shader.modelMatrix := identity;
     Shader.uMouse := Shader.mkVec3 0 0 0;
     Shader.uRadius := 3;
     Shader.uStrength := 10;
     Shader.uSize := 12 # 10;
     Shader.uTime := 1000 |}.

End Sample.

(** ** The pointer ([setupEvents]) *)

Module Pointer.

(** [window.innerWidth] and [window.innerHeight]. *)
Record Window := mkWindow { innerWidth : Q; innerHeight : Q }.

Record Vector2 := mkVector2 { px : Q; py : Q }.

(** The initial value of [mouse], also what [resetMouse] sets. *)
Definition away : Vector2 := mkVector2 (-100) (-100).

(** [updateMouse]: client pixels to normalised device coordinates. *)
Definition updateMouse (w : Window) (x y : Q) : Vector2 :=
  {| px := (x / innerWidth w) * 2 - 1;
     py := - (y / innerHeight w) * 2 + 1 |}.

(** [handleTouch], by the client coordinates of [e.touches]. *)
Definition handleTouch (w : Window) (touches : list (Q * Q)) (mouse : Vector2)
  : Vector2 :=
  match touches with
  | (x, y) :: _ => updateMouse w x y
  | [] => mouse
  end.

Definition resetMouse (mouse : Vector2) : Vector2 := away.

End Pointer.

(** ** The camera ([updateCameraPosition], [handleResize])

    [tanHalfFov] stands for [Math.tan(fovRad / 2)], the tangent of half the
    vertical field of view. *)

Module Camera.

Definition targetDim : Q := 25.

(** The distance [dist] before the floor of 40 is applied. *)
Definition fitDistance (tanHalfFov aspect : Q) : Q :=
  if Qle_bool 1 aspect
  then targetDim / (2 * tanHalfFov)
  else targetDim / (aspect * 2 * tanHalfFov).

(** [updateCameraPosition]: the position the camera is set to. *)
Definition updateCameraPosition (tanHalfFov aspect : Q) : Shader.vec3 :=
  let finalDist := Qmax (fitDistance tanHalfFov aspect) 40 in
  Shader.mkVec3 0 10 finalDist.

(** [handleResize]: the aspect is recomputed from the window first. *)
Definition handleResize (tanHalfFov : Q) (w : Pointer.Window) : Shader.vec3 :=
  updateCameraPosition tanHalfFov (Pointer.innerWidth w / Pointer.innerHeight w).

End Camera.

(** ** Loading a model ([utils/ModelLoader.ts])

    A geometry is the list of its vertices.  The calls into three.js are
    written out after its documentation: the bounding box is the
    component-wise minimum and maximum of the vertices (an empty geometry has
    the empty box, whose size and centre are zero), [scale] multiplies and
    [center] translates every vertex by minus the centre of the box. *)

Module Loader.

Import Shader.

Definition Geometry := list vec3.

(** One of the three coordinates of a vector. *)
Inductive axis := X | Y | Z.

Definition coord (a : axis) (v : vec3) : Q :=
  match a with X => vx v | Y => vy v | Z => vz v end.

Record Box3 := mkBox3 { bmin : vec3; bmax : vec3 }.

Definition expandByPoint (b : Box3) (p : vec3) : Box3 :=
  {| bmin := mkVec3 (Qmin (vx (bmin b)) (vx p)) (Qmin (vy (bmin b)) (vy p))
                    (Qmin (vz (bmin b)) (vz p));
     bmax := mkVec3 (Qmax (vx (bmax b)) (vx p)) (Qmax (vy (bmax b)) (vy p))
                    (Qmax (vz (bmax b)) (vz p)) |}.

(** [geometry.computeBoundingBox()]; [None] is the empty box. *)
Definition computeBoundingBox (g : Geometry) : option Box3 :=
  match g with
  | [] => None
  | v :: rest => Some (fold_left expandByPoint rest (mkBox3 v v))
  end.

(** [box.getSize(size)] *)
Definition getSize (box : option Box3) : vec3 :=
  match box with
  | None => mkVec3 0 0 0
  | Some b => vsub (bmax b) (bmin b)
  end.

(** [box.getCenter(c)] *)
Definition getCenter (box : option Box3) : vec3 :=
  match box with
  | None => mkVec3 0 0 0
  | Some b => vscale (vadd (bmin b) (bmax b)) (1 # 2)
  end.

(** [geometry.scale(s, s, s)] *)
Definition scale (g : Geometry) (s : Q) : Geometry :=
  map (fun v => vscale v s) g.

(** [geometry.center()] *)
Definition center (g : Geometry) : Geometry :=
  let c := getCenter (computeBoundingBox g) in
  map (fun v => vsub v c) g.

(** [Math.max(size.x, size.y, size.z)] *)
Definition maxDim (g : Geometry) : Q :=
  let size := getSize (computeBoundingBox g) in
  Qmax (Qmax (vx size) (vy size)) (vz size).

Definition normalizeMesh (g : Geometry) (targetSize : Q) : Geometry :=
  let g1 := if Qlt_bool 0 (maxDim g)
            then scale g (targetSize / maxDim g)
            else g in
  center g1.

(** A node of the loaded object, in the order [traverse] visits them. *)
Record Object3D := mkObject3D { isMesh : bool; geometry : Geometry }.

(** What [OBJLoader.load] reports: the object, or an error. *)
Inductive LoadResult :=
| Loaded (traversal : list Object3D)
| Failed.

(** The [traverse] callback of [load]: every mesh overwrites [mesh]. *)
Definition pick_mesh (traversal : list Object3D) : option Object3D :=
  fold_left (fun mesh child => if isMesh child then Some child else mesh)
            traversal None.

Section Sampler.

(** [sample g k] is the point the [k]-th call of [sampler.sample] returns
    for the sampler built on [g]. *)
Variable sample : Geometry -> nat -> vec3.

(** The loop of [samplePointsOnSurface], from iteration [i] on. *)
Fixpoint sample_loop (g : Geometry) (remaining i : nat) : Float32Array :=
  match remaining with
  | O => []
  | S k =>
      let tempPosition := sample g i in
      vx tempPosition :: vy tempPosition :: vz tempPosition
        :: sample_loop g k (S i)
  end.

Definition samplePointsOnSurface (g : Geometry) (count : nat) : Float32Array :=
  sample_loop g count 0.

(** [load], with the default [targetSize] of [normalizeMesh]; [None] is
    [null]. *)
Definition load (result : LoadResult) (particleCount : nat)
  : option Float32Array :=
  match result with
  | Failed => None
  | Loaded traversal =>
      match pick_mesh traversal with
      | Some mesh =>
          Some (samplePointsOnSurface (normalizeMesh (geometry mesh) 20)
                                      particleCount)
      | None => None
      end
  end.

End Sampler.

End Loader.

(** [init] with the two files as the loader reports them. *)
Definition boot_from_files (random : nat -> Q)
           (sample : Loader.Geometry -> nat -> Shader.vec3)
           (s : ParticleSettings) (queenFile pawnFile : Loader.LoadResult)
  : ParticleMorpher :=
  boot random s
    (Loader.load sample queenFile (particleCount s))
    (Loader.load sample pawnFile (particleCount s)).

(** Events that are not a click on the explode button. *)
Definition not_explode_click (ev : Event) : bool :=
  match ev with
  | ShapeClick shape => negb (String.eqb shape explode)
  | _ => true
  end.

(** More of the small installation. *)
Module Scene.

Definition window : Pointer.Window := Pointer.mkWindow 1920 1080.

(** A tetrahedron away from the origin. *)
Definition tetra : Loader.Geometry :=
  [Shader.mkVec3 1 1 1; Shader.mkVec3 5 1 1; Shader.mkVec3 1 3 1;
   Shader.mkVec3 1 1 2].

(** A sampler that walks round the vertices. *)
Definition sample (g : Loader.Geometry) (k : nat) : Shader.vec3 :=
  nth (k mod List.length g) g (Shader.mkVec3 0 0 0).

Definition group : Loader.Object3D := Loader.mkObject3D false [].
Definition mesh_a : Loader.Object3D :=
  Loader.mkObject3D true [Shader.mkVec3 0 0 0; Shader.mkVec3 1 0 0].
Definition mesh_b : Loader.Object3D := Loader.mkObject3D true tetra.

(** A file with a group and two meshes, and one that fails to load. *)
Definition queen_file : Loader.LoadResult :=
  Loader.Loaded [group; mesh_a; mesh_b; group].
Definition pawn_file : Loader.LoadResult := Loader.Failed.

(** The object after [setupParticles], before any model is there. *)
Definition fresh : ParticleMorpher :=
  setupParticles Sample.random (construct Sample.settings2).

(** One second into the morph from the queen to the pawn. *)
Definition mid_pawn : ParticleMorpher :=
  run Sample.random Sample.ease [ShapeClick "pawn"; GsapTick 1] Sample.at_queen.

End Scene.

(** * Properties *)

Section Properties.

Variable random : nat -> Q.
Variable ease : Q -> Q.

(** ** Records and setters *)

Lemma set_isTransitioning_same (m : ParticleMorpher) (b : bool) :
  isTransitioning m = b -> set_isTransitioning b m = m.
Proof. intros <-. destruct m; reflexivity. Qed.

Lemma set_activeTweens_same (m : ParticleMorpher) (l : list Tween) :
  activeTweens m = l -> set_activeTweens l m = m.
Proof. intros <-. destruct m; reflexivity. Qed.

(** ** [morphTo], case by case *)

Lemma morphTo_busy (shape : string) (m : ParticleMorpher) :
  isTransitioning m = true -> String.eqb shape explode = false ->
  morphTo random shape m = m.
Proof.
  intros Hbusy Hne. unfold morphTo. rewrite Hbusy, Hne. reflexivity.
Qed.

Lemma morphTo_missing (shape : string) (m : ParticleMorpher) :
  String.eqb shape explode = false -> obj_get (models m) shape = None ->
  morphTo random shape m = m.
Proof.
  intros Hne Hnone. unfold morphTo. rewrite Hne.
  destruct (isTransitioning m) eqn:Hflag; simpl; [reflexivity|].
  destruct (particles m); [|reflexivity].
  simpl. rewrite Hnone. simpl.
  destruct m; simpl in *; subst; reflexivity.
Qed.

Lemma morphTo_shape (shape : string) (m : ParticleMorpher) buf cloud :
  isTransitioning m = false -> particles m = Some buf ->
  String.eqb shape explode = false -> obj_get (models m) shape = Some cloud ->
  morphTo random shape m = gsap_to shape cloud (set_isTransitioning true m).
Proof.
  intros Hflag Hbuf Hne Hget. unfold morphTo.
  rewrite Hflag, Hne, Hbuf. simpl. rewrite Hget. reflexivity.
Qed.

Lemma morphTo_explode (m : ParticleMorpher) buf :
  particles m = Some buf ->
  morphTo random explode m =
  gsap_to explode (fill_positions random (particleCount (settings m)) (randomCalls m))
    (set_randomCalls (randomCalls m + 3 * particleCount (settings m))
       (set_isTransitioning true m)).
Proof.
  intros Hbuf. unfold morphTo. rewrite String.eqb_refl, Hbuf.
  rewrite andb_false_r. reflexivity.
Qed.


(** [morphTo] writes the flag, the timeline and the random counter, and
    nothing else. *)
Lemma morphTo_frame (shape : string) (m : ParticleMorpher) :
  let m' := morphTo random shape m in
  settings m' = settings m /\ particles m' = particles m /\
  models m' = models m /\ currentShape m' = currentShape m /\
  lastMorphTime m' = lastMorphTime m /\ console m' = console m.
Proof.
  unfold morphTo.
  destruct (isTransitioning m && negb (String.eqb shape explode));
    [repeat split|].
  destruct (particles m) eqn:Hp; [|repeat split; now rewrite ?Hp].
  destruct (String.eqb shape explode); simpl.
  - repeat split; now rewrite ?Hp.
  - destruct (obj_get (models m) shape); simpl; repeat split; now rewrite ?Hp.
Qed.

(** ** Tweens *)

Lemma write_values_length target : forall start endArray ratio,
  List.length (write_values target start endArray ratio) = List.length target.
Proof.
  induction target as [|t ts IH]; intros [|s ss] [|e es] ratio; simpl;
    try reflexivity.
  now rewrite IH.
Qed.

Lemma rests_on_own_values (buf endArray : Float32Array) :
  rests_on_target buf buf endArray.
Proof.
  revert endArray. induction buf as [|b bs IH]; intros [|e es]; simpl; auto.
Qed.

Lemma write_values_rests target : forall start endArray ratio,
  rests_on_target target start endArray ->
  rests_on_target (write_values target start endArray ratio) start endArray.
Proof.
  induction target as [|t ts IH]; intros [|s ss] [|e es] ratio Hrest;
    simpl in *; auto.
  destruct Hrest as [Ht Hrest]. split; [|now apply IH].
  intros Hse. destruct (Qeq_bool s e) eqn:E; [now apply Ht|].
  apply Qeq_bool_iff in Hse. congruence.
Qed.

Lemma write_values_final target : forall start endArray,
  List.length start = List.length target ->
  List.length target = List.length endArray ->
  rests_on_target target start endArray ->
  Forall2 Qeq (write_values target start endArray 1) endArray.
Proof.
  induction target as [|t ts IH]; intros [|s ss] [|e es] Hs He Hrest;
    simpl in *; try discriminate; constructor.
  - destruct (Qeq_bool s e) eqn:E.
    + apply Qeq_bool_iff in E. now apply Hrest.
    + unfold lerp. ring.
  - apply IH; try congruence. apply Hrest.
Qed.

Lemma Qle_bool_false (a b : Q) : Qle_bool a b = false -> b < a.
Proof.
  intros H. apply Qnot_le_lt. intros Hle.
  apply Qle_bool_iff in Hle. congruence.
Qed.

Lemma gsap_tick_idle (dt : Q) (m : ParticleMorpher) :
  activeTweens m = [] -> gsap_tick ease dt m = m.
Proof.
  intros H. unfold gsap_tick. rewrite H. simpl.
  now apply set_activeTweens_same.
Qed.

Lemma run_ticks_idle (dts : list Q) : forall m,
  activeTweens m = [] -> run random ease (ticks dts) m = m.
Proof.
  induction dts as [|dt dts IH]; intros m H; simpl; [reflexivity|].
  rewrite gsap_tick_idle by exact H. now apply IH.
Qed.

Lemma gsap_tick_single_running (dt : Q) (tw : Tween) (m : ParticleMorpher) :
  activeTweens m = [tw] ->
  Qle_bool (tw_duration tw) (tw_time tw + dt) = false ->
  let buf := match particles m with Some b => b | None => [] end in
  let start := match tw_start tw with Some s => s | None => buf end in
  gsap_tick ease dt m =
  set_activeTweens [advanced dt buf tw]
    (set_particles
       (option_map
          (fun b => write_values b start (tw_endArray tw)
                      (ease ((tw_time tw + dt) / tw_duration tw)))
          (particles m)) m).
Proof.
  intros Htw Hrun. unfold gsap_tick. rewrite Htw. simpl.
  unfold tween_render. rewrite Hrun. reflexivity.
Qed.

Lemma gsap_tick_single_done (dt : Q) (tw : Tween) (m : ParticleMorpher) :
  activeTweens m = [tw] ->
  Qle_bool (tw_duration tw) (tw_time tw + dt) = true ->
  let buf := match particles m with Some b => b | None => [] end in
  let start := match tw_start tw with Some s => s | None => buf end in
  gsap_tick ease dt m =
  set_activeTweens []
    (onComplete (tw_shape tw)
       (set_particles
          (option_map (fun b => write_values b start (tw_endArray tw) 1)
                      (particles m)) m)).
Proof.
  intros Htw Hdone. unfold gsap_tick. rewrite Htw. simpl.
  unfold tween_render. rewrite Hdone. reflexivity.
Qed.

(** A lone tween runs to its end once the ticks cover its duration: its
    callback fires once and nothing else changes hands. *)
Lemma single_tween_completes (dts : list Q) : forall tw m,
  activeTweens m = [tw] ->
  Forall (Qle 0) dts ->
  tw_time tw < tw_duration tw ->
  tw_duration tw <= tw_time tw + total_time dts ->
  completed_with (tw_shape tw) m (run random ease (ticks dts) m).
Proof.
  induction dts as [|dt dts IH]; intros tw m Htw Hpos Hlt Hle.
  - simpl in Hle. exfalso. lra.
  - simpl. inversion Hpos as [|? ? Hdt Hpos']; subst.
    destruct (Qle_bool (tw_duration tw) (tw_time tw + dt)) eqn:Hfin.
    + rewrite (gsap_tick_single_done dt tw m Htw Hfin).
      rewrite run_ticks_idle by reflexivity.
      unfold completed_with; simpl. repeat split; reflexivity.
    + rewrite (gsap_tick_single_running dt tw m Htw Hfin).
      apply Qle_bool_false in Hfin.
      match goal with
      | |- completed_with _ _ (run _ _ _ ?m1) =>
          assert (Hih : completed_with (tw_shape tw) m1
                          (run random ease (ticks dts) m1))
      end.
      { apply (IH (advanced dt
                     (match particles m with Some b => b | None => [] end) tw));
          simpl; try reflexivity; try assumption.
        simpl in Hle. lra. }
      unfold completed_with in *; simpl in *. exact Hih.
Qed.

(** ... and leaves the buffer on the tween's end array. *)
Lemma single_tween_buffer (dts : list Q) : forall tw m buf,
  activeTweens m = [tw] ->
  particles m = Some buf ->
  List.length buf = List.length (tw_endArray tw) ->
  match tw_start tw with
  | Some s => List.length s = List.length buf /\
              rests_on_target buf s (tw_endArray tw)
  | None => True
  end ->
  Forall (Qle 0) dts ->
  tw_time tw < tw_duration tw ->
  tw_duration tw <= tw_time tw + total_time dts ->
  buffer_is (run random ease (ticks dts) m) (tw_endArray tw).
Proof.
  induction dts as [|dt dts IH]; intros tw m buf Htw Hbuf Hlen Hstart Hpos Hlt Hle.
  - simpl in Hle. exfalso. lra.
  - simpl. inversion Hpos as [|? ? Hdt Hpos']; subst.
    assert (Hs : List.length
                   (match tw_start tw with Some s => s | None => buf end)
                 = List.length buf /\
                 rests_on_target buf
                   (match tw_start tw with Some s => s | None => buf end)
                   (tw_endArray tw)).
    { destruct (tw_start tw); [exact Hstart|].
      split; [reflexivity | apply rests_on_own_values]. }
    destruct Hs as [Hsl Hsr].
    destruct (Qle_bool (tw_duration tw) (tw_time tw + dt)) eqn:Hfin.
    + rewrite (gsap_tick_single_done dt tw m Htw Hfin).
      rewrite run_ticks_idle by reflexivity.
      unfold buffer_is; simpl. rewrite Hbuf. simpl.
      eexists; split; [reflexivity|].
      now apply write_values_final.
    + rewrite (gsap_tick_single_running dt tw m Htw Hfin).
      apply Qle_bool_false in Hfin. rewrite Hbuf. simpl.
      eapply (IH (advanced dt buf tw)); simpl; try reflexivity; try assumption.
      * now rewrite write_values_length.
      * rewrite write_values_length. split; [exact Hsl|].
        now apply write_values_rests.
      * simpl in Hle. lra.
Qed.



(** A tick writes the buffer and, through [onComplete], the flag, the
    current shape and the console.  It leaves the settings, the library,
    the timestamp and the random counter alone, keeps the buffer's length,
    and every tween it leaves on the timeline was there before, with the
    same end array. *)
Lemma render_all_frame (dt : Q) (tws : list Tween) : forall m,
  let m' := fst (render_all ease dt tws m) in
  settings m' = settings m /\ models m' = models m /\
  lastMorphTime m' = lastMorphTime m /\ randomCalls m' = randomCalls m /\
  option_map (@List.length Q) (particles m') =
  option_map (@List.length Q) (particles m) /\
  forall tw', In tw' (snd (render_all ease dt tws m)) ->
    exists tw, In tw tws /\ tw_endArray tw' = tw_endArray tw /\
               tw_shape tw' = tw_shape tw /\ tw_duration tw' = tw_duration tw.
Proof.
  induction tws as [|tw rest IH]; intros m; simpl.
  - repeat split; intros tw' [].
  - unfold tween_render.
    set (m1 := set_particles _ m).
    assert (Hlen : option_map (@List.length Q) (particles m1) =
                   option_map (@List.length Q) (particles m)).
    { unfold m1; simpl. destruct (particles m); simpl; [|reflexivity].
      now rewrite write_values_length. }
    destruct (Qle_bool (tw_duration tw) (tw_time tw + dt)).
    + specialize (IH (onComplete (tw_shape tw) m1)).
      destruct (render_all ease dt rest (onComplete (tw_shape tw) m1))
        as [m2 rest'].
      simpl in *. destruct IH as (H1 & H2 & H3 & H4 & H5 & H6).
      repeat split; try congruence.
      intros tw' Hin. destruct (H6 tw' Hin) as (tw0 & Hin0 & Heq).
      exists tw0. split; [now right | exact Heq].
    + specialize (IH m1).
      destruct (render_all ease dt rest m1) as [m2 rest'].
      simpl in *. destruct IH as (H1 & H2 & H3 & H4 & H5 & H6).
      repeat split; try congruence.
      intros tw' [<- | Hin].
      * exists tw. repeat split. now left.
      * destruct (H6 tw' Hin) as (tw0 & Hin0 & Heq).
        exists tw0. split; [now right | exact Heq].
Qed.

Lemma gsap_tick_frame (dt : Q) (m : ParticleMorpher) :
  let m' := gsap_tick ease dt m in
  settings m' = settings m /\ models m' = models m /\
  lastMorphTime m' = lastMorphTime m /\ randomCalls m' = randomCalls m /\
  option_map (@List.length Q) (particles m') =
  option_map (@List.length Q) (particles m) /\
  forall tw', In tw' (activeTweens m') ->
    exists tw, In tw (activeTweens m) /\ tw_endArray tw' = tw_endArray tw /\
               tw_shape tw' = tw_shape tw /\ tw_duration tw' = tw_duration tw.
Proof.
  pose proof (render_all_frame dt (activeTweens m) m) as H.
  unfold gsap_tick.
  destruct (render_all ease dt (activeTweens m) m) as [m1 tws].
  simpl in *. exact H.
Qed.

Lemma run_ticks_keeps_buffer (dts : list Q) : forall m buf,
  particles m = Some buf ->
  exists buf', particles (run random ease (ticks dts) m) = Some buf'.
Proof.
  induction dts as [|dt dts IH]; intros m buf Hbuf; simpl; [now exists buf|].
  destruct (gsap_tick_frame dt m) as (_ & _ & _ & _ & Hlen & _).
  rewrite Hbuf in Hlen.
  destruct (particles (gsap_tick ease dt m)) as [b|] eqn:Hb; [|discriminate].
  now apply (IH _ b).
Qed.

Lemma handleAutoMorph_models (now : Q) (m : ParticleMorpher) :
  models (handleAutoMorph random now m) = models m.
Proof.
  unfold handleAutoMorph.
  destruct (negb (autoMorph (settings m)) || isTransitioning m); [reflexivity|].
  destruct (Qlt_bool _ _); [|reflexivity].
  destruct (0 <? _)%Z; [|reflexivity].
  simpl. apply morphTo_frame.
Qed.

(** No event writes the library. *)
Lemma step_models (ev : Event) (m : ParticleMorpher) :
  models (step random ease ev m) = models m.
Proof.
  destruct ev as [shape | checked now | val | dt | now]; simpl.
  - apply morphTo_frame.
  - unfold onAutoMorphChange, onAutoMorphReset. simpl.
    destruct checked; [destruct (particles m)|]; reflexivity.
  - reflexivity.
  - apply gsap_tick_frame.
  - unfold animate. now rewrite handleAutoMorph_models.
Qed.

Lemma reachable_run (evs : list Event) : forall m0 m,
  reachable random ease false m0 m ->
  reachable random ease false m0 (run random ease evs m).
Proof.
  induction evs as [|ev evs IH]; intros m0 m Hreach; simpl; [exact Hreach|].
  apply IH. now apply reach_step.
Qed.

(** ** Requests *)

(** C1 (as the program has it).  What [morphTo] tests is the flag: a request
    for an ordinary shape made while [isTransitioning] is set returns at the
    first guard, so the state, the timeline and the buffer are the ones
    before the call, and nothing is queued.  Started from rest with a
    request for [first], a second request for [second] changes nothing, and
    once the ticks cover the duration the buffer holds the cloud of
    [first], [first] is the current shape and only its completion was
    logged. *)
Theorem C1_request_while_transitioning_is_dropped
  (m : ParticleMorpher) (first second : string) (cloud : Float32Array)
  (dts : list Q) :
  idle m ->
  same_length_as_buffer m cloud ->
  obj_get (models m) first = Some cloud ->
  first <> explode -> second <> explode ->
  0 < morphDuration (settings m) / animationSpeed (settings m) ->
  Forall (Qle 0) dts ->
  morphDuration (settings m) / animationSpeed (settings m) <= total_time dts ->
  let busy := morphTo random first m in
  let final := run random ease (ticks dts) (morphTo random second busy) in
  (forall m' shape, isTransitioning m' = true -> shape <> explode ->
                    morphTo random shape m' = m') /\
  isTransitioning busy = true /\
  morphTo random second busy = busy /\
  buffer_is final cloud /\
  completed_with first m final.
Proof.
  intros [Hnone Hflag] [buf [Hbuf Hlen]] Hget Hfirst Hsecond Hdur Hpos Hcover.
  apply String.eqb_neq in Hfirst, Hsecond.
  assert (Hdrop : forall m' shape, isTransitioning m' = true ->
                    shape <> explode -> morphTo random shape m' = m').
  { intros m' shape Hb Hne. apply morphTo_busy; [exact Hb|].
    now apply String.eqb_neq. }
  cbv zeta. rewrite (morphTo_shape first m buf cloud Hflag Hbuf Hfirst Hget).
  set (tw := {| tw_shape := first; tw_endArray := cloud;
                tw_duration :=
                  morphDuration (settings m) / animationSpeed (settings m);
                tw_time := 0; tw_start := None |}).
  set (busy := gsap_to first cloud (set_isTransitioning true m)).
  assert (Htw : activeTweens busy = [tw]).
  { unfold busy, gsap_to; simpl. rewrite Hnone. reflexivity. }
  assert (Hsame : morphTo random second busy = busy).
  { apply morphTo_busy; [reflexivity | exact Hsecond]. }
  split; [exact Hdrop|]. split; [reflexivity|]. split; [exact Hsame|].
  rewrite Hsame. split.
  - apply (single_tween_buffer dts tw busy buf Htw); simpl; auto; lra.
  - pose proof (single_tween_completes dts tw busy Htw Hpos) as Hc.
    simpl in Hc. unfold completed_with in *; simpl in *.
    apply Hc; lra.
Qed.

(** ** The flag and the timeline *)











(** ** A request made at rest *)

Lemma morphTo_from_rest (shape : string) (m : ParticleMorpher) buf :
  idle m -> particles m = Some buf ->
  shape = explode \/ obj_get (models m) shape <> None ->
  exists cloud,
    activeTweens (morphTo random shape m) =
      [ {| tw_shape := shape; tw_endArray := cloud;
           tw_duration :=
             morphDuration (settings m) / animationSpeed (settings m);
           tw_time := 0; tw_start := None |} ] /\
    isTransitioning (morphTo random shape m) = true /\
    (shape <> explode -> obj_get (models m) shape = Some cloud).
Proof.
  intros [Hnil Hflag] Hbuf Hres.
  destruct (String.eqb shape explode) eqn:Hex.
  - apply String.eqb_eq in Hex. subst shape.
    rewrite (morphTo_explode m buf Hbuf). unfold gsap_to; simpl.
    rewrite Hnil. eexists; repeat split. intros Hne. now elim Hne.
  - destruct Hres as [-> | Hres]; [now rewrite String.eqb_refl in Hex|].
    destruct (obj_get (models m) shape) as [cloud|] eqn:Hget; [|now elim Hres].
    rewrite (morphTo_shape shape m buf cloud Hflag Hbuf Hex Hget).
    unfold gsap_to; simpl. rewrite Hnil. exists cloud. repeat split.
Qed.

Lemma request_from_rest_completes (shape : string) (m : ParticleMorpher) buf dts :
  idle m -> particles m = Some buf ->
  shape = explode \/ obj_get (models m) shape <> None ->
  0 < morphDuration (settings m) / animationSpeed (settings m) ->
  Forall (Qle 0) dts ->
  morphDuration (settings m) / animationSpeed (settings m) <= total_time dts ->
  completed_with shape (morphTo random shape m)
    (run random ease (ticks dts) (morphTo random shape m)).
Proof.
  intros Hidle Hbuf Hres Hdur Hpos Hcover.
  destruct (morphTo_from_rest shape m buf Hidle Hbuf Hres)
    as (cloud & Htw & _ & _).
  pose proof (single_tween_completes dts _ _ Htw Hpos) as Hc.
  simpl in Hc. apply Hc; lra.
Qed.

(** C3 (as the program has it).  [onComplete] records the name that was
    requested, whatever it is: once an explode request made at rest has
    run to its end, [currentShape] is ["explode"].  What is never stored is
    the explode cloud: no event writes [models]. *)
Theorem C3_explode_is_recorded_as_current_shape
  (m : ParticleMorpher) (buf : Float32Array) (dts : list Q) :
  idle m -> particles m = Some buf ->
  0 < morphDuration (settings m) / animationSpeed (settings m) ->
  Forall (Qle 0) dts ->
  morphDuration (settings m) / animationSpeed (settings m) <= total_time dts ->
  let final := run random ease (ticks dts) (morphTo random explode m) in
  currentShape final = explode /\
  console final = explode :: console m /\
  models final = models m /\
  (forall ev m', models (step random ease ev m') = models m').
Proof.
  intros Hidle Hbuf Hdur Hpos Hcover.
  destruct (request_from_rest_completes explode m buf dts Hidle Hbuf
              (or_introl eq_refl) Hdur Hpos Hcover)
    as (_ & _ & Hshape & Hlog & _ & Hmodels & _).
  destruct (morphTo_frame explode m) as (_ & _ & Hm & _ & _ & Hc).
  cbv zeta. repeat split.
  - exact Hshape.
  - now rewrite Hlog, Hc.
  - now rewrite Hmodels, Hm.
  - apply step_models.
Qed.

(** C4 (as the program has it).  A request for an ordinary shape that has
    no entry in [models] leaves the whole state as it was: the flag keeps
    its value (down, when the program is at rest), the timeline, the buffer
    and [currentShape] are untouched.  An explode request always has a
    cloud, also with no particles at all, and starts a tween. *)
Theorem C4_unregistered_shape_is_a_noop (m : ParticleMorpher) (shape : string) :
  shape <> explode -> obj_get (models m) shape = None ->
  let m' := morphTo random shape m in
  m' = m /\
  (isTransitioning m = false -> isTransitioning m' = false) /\
  activeTweens m' = activeTweens m /\ particles m' = particles m /\
  currentShape m' = currentShape m /\
  (forall m0 buf, particles m0 = Some buf ->
     isTransitioning (morphTo random explode m0) = true /\
     List.length (activeTweens (morphTo random explode m0)) =
     S (List.length (activeTweens m0))).
Proof.
  intros Hne Hnone. apply String.eqb_neq in Hne.
  cbv zeta. rewrite (morphTo_missing shape m Hne Hnone).
  repeat split; try reflexivity; try tauto;
    rewrite (morphTo_explode m0 buf H); unfold gsap_to; simpl;
    [reflexivity|].
  rewrite length_app. simpl. lia.
Qed.

(** ** The explode cloud *)

Lemma fill_positions_length (count : nat) : forall c,
  List.length (fill_positions random count c) = (3 * count)%nat.
Proof.
  induction count as [|k IH]; intros c; simpl; [reflexivity|].
  rewrite IH. lia.
Qed.

Lemma fill_positions_nth (count : nat) : forall c j,
  (j < 3 * count)%nat ->
  nth j (fill_positions random count c) 0 = spread (random (c + j)).
Proof.
  induction count as [|k IH]; intros c j Hj; [lia|].
  simpl. destruct j as [|[|[|j]]].
  - now rewrite Nat.add_0_r.
  - reflexivity.
  - reflexivity.
  - rewrite IH by lia. f_equal. f_equal. lia.
Qed.

Lemma spread_range (r : Q) : 0 <= r < 1 -> -250 <= spread r /\ spread r < 250.
Proof. unfold spread. intros [H0 H1]. split; lra. Qed.

(** C5.  [getExplodePositions] returns [3 * particleCount] numbers, three
    per particle.  Coordinate [j] is [(r - 0.5) * 500] for the [j]-th
    value [r] that [Math.random()] hands out during the call, a value no
    other coordinate uses, so it lies in the cube [-250, 250] and is
    spread over it as [r] is over [0, 1). *)
Theorem C5_explode_cloud_fills_the_cube (m : ParticleMorpher) (j : nat) :
  (j < 3 * particleCount (settings m))%nat ->
  0 <= random (randomCalls m + j) < 1 ->
  let cloud := fst (getExplodePositions random m) in
  List.length cloud = (3 * particleCount (settings m))%nat /\
  nth j cloud 0 = (random (randomCalls m + j) - (1 # 2)) * 500 /\
  -250 <= nth j cloud 0 /\ nth j cloud 0 <= 250 /\
  randomCalls (snd (getExplodePositions random m)) =
    (randomCalls m + 3 * particleCount (settings m))%nat.
Proof.
  intros Hj Hr. unfold getExplodePositions; simpl fst; simpl snd.
  cbv zeta. rewrite fill_positions_length, (fill_positions_nth _ _ _ Hj).
  destruct (spread_range _ Hr) as [Hlo Hhi].
  repeat split; try assumption. now apply Qlt_le_weak.
Qed.


(** ** The auto-morph scheduler *)

Lemma Qlt_bool_iff (a b : Q) : Qlt_bool a b = true <-> a < b.
Proof.
  unfold Qlt_bool. rewrite negb_true_iff. split.
  - apply Qle_bool_false.
  - intros Hlt. destruct (Qle_bool b a) eqn:H; [|reflexivity].
    apply Qle_bool_iff in H. lra.
Qed.

Lemma indexOf_from_range (l : list string) (x : string) : forall i,
  indexOf_from l x i = (-1)%Z \/
  (i <= indexOf_from l x i < i + Z.of_nat (List.length l))%Z.
Proof.
  induction l as [|y rest IH]; intros i; simpl; [now left|].
  destruct (String.eqb y x); [right; lia|].
  destruct (IH (i + 1)%Z) as [-> | H]; [now left | right; lia].
Qed.

Lemma indexOf_from_absent (l : list string) (x : string) : forall i,
  ~ In x l -> indexOf_from l x i = (-1)%Z.
Proof.
  induction l as [|y rest IH]; intros i Hnot; simpl; [reflexivity|].
  destruct (String.eqb y x) eqn:Heq.
  - apply String.eqb_eq in Heq. elim Hnot. now left.
  - apply IH. intros Hin. apply Hnot. now right.
Qed.

(** The index the scheduler computes is the spec's [mod] and falls inside
    the key list. *)
Lemma next_index_in_range (keys : list string) (current : string) :
  keys <> [] ->
  let count := Z.of_nat (List.length keys) in
  let next := Js.rem (indexOf keys current + 1) count in
  next = ((indexOf keys current + 1) mod count)%Z /\ (0 <= next < count)%Z /\
  exists target, nth_error keys (Z.to_nat next) = Some target /\
                 at_index keys next = target.
Proof.
  intros Hne. cbv zeta.
  assert (Hcount : (0 < Z.of_nat (List.length keys))%Z)
    by (destruct keys; [now elim Hne | simpl; lia]).
  assert (Hidx : (0 <= indexOf keys current + 1)%Z)
    by (unfold indexOf; destruct (indexOf_from_range keys current 0); lia).
  unfold Js.rem. rewrite Z.rem_mod_nonneg by lia.
  pose proof (Z.mod_pos_bound (indexOf keys current + 1) _ Hcount) as Hb.
  split; [reflexivity|]. split; [exact Hb|].
  set (next := ((indexOf keys current + 1) mod Z.of_nat (List.length keys))%Z) in *.
  assert (Hlt : (Z.to_nat next < List.length keys)%nat) by lia.
  destruct (nth_error keys (Z.to_nat next)) as [target|] eqn:Hn.
  - exists target. split; [reflexivity|]. unfold at_index.
    destruct (next <? 0)%Z eqn:Hneg; [lia|].
    now apply nth_error_nth.
  - apply nth_error_None in Hn. lia.
Qed.

Lemma handleAutoMorph_due (now : Q) (m : ParticleMorpher) :
  autoMorph (settings m) = true -> isTransitioning m = false ->
  autoMorphDuration (settings m) < now - lastMorphTime m ->
  models m <> [] ->
  handleAutoMorph random now m =
  set_lastMorphTime now
    (morphTo random
       (at_index (Object_keys (models m))
          (Js.rem (indexOf (Object_keys (models m)) (currentShape m) + 1)
                  (Z.of_nat (List.length (Object_keys (models m)))))) m).
Proof.
  intros Hauto Hflag Hdue Hne. unfold handleAutoMorph.
  rewrite Hauto, Hflag. simpl.
  apply Qlt_bool_iff in Hdue. rewrite Hdue.
  destruct (models m) as [|kv rest]; [now elim Hne|]. reflexivity.
Qed.

(** One round of the scheduler at rest: the frame issues the request, the
    ticks carry it to its end. *)
Lemma auto_morph_round (m : ParticleMorpher) buf (now : Q) (dts : list Q)
      (target : string) :
  idle m -> autoMorph (settings m) = true -> particles m = Some buf ->
  autoMorphDuration (settings m) < now - lastMorphTime m ->
  models m <> [] ->
  at_index (Object_keys (models m))
    (Js.rem (indexOf (Object_keys (models m)) (currentShape m) + 1)
            (Z.of_nat (List.length (Object_keys (models m))))) = target ->
  obj_get (models m) target <> None ->
  0 < morphDuration (settings m) / animationSpeed (settings m) ->
  Forall (Qle 0) dts ->
  morphDuration (settings m) / animationSpeed (settings m) <= total_time dts ->
  let m' := run random ease (AnimationFrame now :: ticks dts) m in
  idle m' /\ currentShape m' = target /\ lastMorphTime m' = now /\
  models m' = models m /\ settings m' = settings m /\
  exists buf', particles m' = Some buf'.
Proof.
  intros [Hnil Hflag] Hauto Hbuf Hdue Hne Htarget Hget Hdur Hpos Hcover.
  cbv zeta. simpl. unfold animate.
  rewrite (handleAutoMorph_due now (updateStats m)) by assumption.
  simpl models. simpl currentShape. rewrite Htarget.
  destruct (morphTo_from_rest target (updateStats m) buf)
    as (cloud & Htw & _ & _); [now split | exact Hbuf | now right |].
  simpl in Htw.
  destruct (morphTo_frame target (updateStats m))
    as (Hs & Hp & Hm & _ & _ & _). simpl in Hs, Hp, Hm.
  set (busy := set_lastMorphTime now (morphTo random target (updateStats m))).
  assert (Hbusy : activeTweens busy = [ _ ]) by exact Htw.
  pose proof (single_tween_completes dts _ busy Hbusy Hpos) as Hc.
  simpl in Hc.
  destruct Hc as (H1 & H2 & H3 & _ & H5 & H6 & H7 & _); [lra | lra |].
  destruct (run_ticks_keeps_buffer dts busy buf) as [buf' Hbuf'].
  { unfold busy; simpl. now rewrite Hp. }
  repeat split; try assumption.
  - rewrite H6. exact Hm.
  - rewrite H5. exact Hs.
  - now exists buf'.
Qed.

Lemma keys_queen_pawn (o : JsObject Float32Array) :
  Object_keys o = ["queen"; "pawn"]%string ->
  o <> [] /\ obj_get o "queen" <> None /\ obj_get o "pawn" <> None.
Proof.
  destruct o as [|[k1 v1] [|[k2 v2] [|kv rest]]]; simpl; try discriminate.
  intros H. injection H as -> ->. simpl. repeat split; discriminate.
Qed.

(** C7.  With auto-morph on, a frame issues a request exactly when more
    than the interval has passed since [lastMorphTime], no transition is
    flagged and [models] has a key; the target is the key at index
    [(indexOf(currentShape) + 1) mod count] in insertion order, and
    [lastMorphTime] becomes [now].  In every other case, an empty library
    included, the frame changes nothing.  With the keys queen, pawn and the
    queen as current shape, two rounds of the scheduler lead to the pawn
    and back to the queen. *)
Theorem C7_auto_morph_schedule (now : Q) (m : ParticleMorpher) :
  autoMorph (settings m) = true ->
  let keys := Object_keys (models m) in
  let count := Z.of_nat (List.length keys) in
  let next := ((indexOf keys (currentShape m) + 1) mod count)%Z in
  let due :=
    Qlt_bool (autoMorphDuration (settings m)) (now - lastMorphTime m)
    && negb (isTransitioning m) && (0 <? count)%Z in
  (due = false -> handleAutoMorph random now m = m) /\
  (due = true ->
   exists target,
     nth_error keys (Z.to_nat next) = Some target /\
     handleAutoMorph random now m =
       set_lastMorphTime now (morphTo random target m) /\
     lastMorphTime (handleAutoMorph random now m) = now) /\
  (keys = [] -> handleAutoMorph random now m = m) /\
  (forall m0 buf now1 now2 dts1 dts2,
     idle m0 -> autoMorph (settings m0) = true -> particles m0 = Some buf ->
     Object_keys (models m0) = ["queen"; "pawn"]%string ->
     currentShape m0 = "queen"%string ->
     0 < morphDuration (settings m0) / animationSpeed (settings m0) ->
     autoMorphDuration (settings m0) < now1 - lastMorphTime m0 ->
     autoMorphDuration (settings m0) < now2 - now1 ->
     Forall (Qle 0) dts1 ->
     morphDuration (settings m0) / animationSpeed (settings m0)
       <= total_time dts1 ->
     Forall (Qle 0) dts2 ->
     morphDuration (settings m0) / animationSpeed (settings m0)
       <= total_time dts2 ->
     let m1 := run random ease (AnimationFrame now1 :: ticks dts1) m0 in
     let m2 := run random ease (AnimationFrame now2 :: ticks dts2) m1 in
     currentShape m1 = "pawn"%string /\ currentShape m2 = "queen"%string).
Proof.
  intros Hauto. cbv zeta. split; [|split; [|split]].
  - intros Hdue. unfold handleAutoMorph. rewrite Hauto. simpl.
    destruct (isTransitioning m); [reflexivity|].
    destruct (Qlt_bool _ _); [|reflexivity].
    simpl in Hdue. now rewrite Hdue.
  - intros Hdue.
    apply andb_true_iff in Hdue as [Hdue Hcount].
    apply andb_true_iff in Hdue as [Hlate Hflag].
    apply negb_true_iff in Hflag. apply Qlt_bool_iff in Hlate.
    assert (Hne : models m <> []).
    { intros E. rewrite E in Hcount. discriminate. }
    assert (Hkeys : Object_keys (models m) <> []).
    { destruct (models m); [now elim Hne | discriminate]. }
    destruct (next_index_in_range (Object_keys (models m)) (currentShape m) Hkeys)
      as (Hmod & _ & target & Hnth & Hat).
    exists target. rewrite <- Hmod.
    rewrite (handleAutoMorph_due now m Hauto Hflag Hlate Hne), Hat.
    repeat split. exact Hnth.
  - intros Hnil. unfold handleAutoMorph, Object_keys in *.
    rewrite Hauto. simpl.
    destruct (isTransitioning m); [reflexivity|].
    destruct (Qlt_bool _ _); [|reflexivity].
    destruct (models m); [reflexivity | discriminate].
  - intros m0 buf now1 now2 dts1 dts2 Hidle Hauto0 Hbuf Hkeys Hcur Hdur
           Hlate1 Hlate2 Hpos1 Hcov1 Hpos2 Hcov2.
    destruct (keys_queen_pawn _ Hkeys) as (Hne & Hq & Hp).
    destruct (auto_morph_round m0 buf now1 dts1 "pawn")
      as (Hidle1 & Hcur1 & Hlast1 & Hmod1 & Hset1 & buf1 & Hbuf1);
      try assumption.
    { rewrite Hkeys, Hcur. reflexivity. }
    cbv zeta. split; [exact Hcur1|].
    destruct (auto_morph_round
                (run random ease (AnimationFrame now1 :: ticks dts1) m0)
                buf1 now2 dts2 "queen")
      as (_ & Hcur2 & _); try assumption;
      rewrite ?Hmod1, ?Hset1, ?Hlast1, ?Hcur1; try assumption.
    rewrite Hkeys. reflexivity.
Qed.

(** C10.  When [currentShape] is not a key of [models], as after an explode
    morph has completed, [indexOf] yields [-1] and a due frame requests the
    first key in insertion order. *)
Theorem C10_unknown_current_shape_restarts_the_cycle
  (now : Q) (m : ParticleMorpher) (first : string) (rest : list string) :
  autoMorph (settings m) = true -> isTransitioning m = false ->
  autoMorphDuration (settings m) < now - lastMorphTime m ->
  Object_keys (models m) = first :: rest ->
  ~ In (currentShape m) (first :: rest) ->
  indexOf (Object_keys (models m)) (currentShape m) = (-1)%Z /\
  handleAutoMorph random now m = set_lastMorphTime now (morphTo random first m).
Proof.
  intros Hauto Hflag Hlate Hkeys Hnot.
  assert (Hidx : indexOf (Object_keys (models m)) (currentShape m) = (-1)%Z).
  { rewrite Hkeys. now apply indexOf_from_absent. }
  split; [exact Hidx|].
  rewrite (handleAutoMorph_due now m Hauto Hflag Hlate).
  - rewrite Hidx, Hkeys. reflexivity.
  - intros E. rewrite E in Hkeys. discriminate.
Qed.

(** ** The timestamp *)

Lemma handleAutoMorph_last (now : Q) (m : ParticleMorpher) :
  lastMorphTime (handleAutoMorph random now m) =
  if autoMorph (settings m) && negb (isTransitioning m)
     && Qlt_bool (autoMorphDuration (settings m)) (now - lastMorphTime m)
     && negb (match models m with [] => true | _ => false end)
  then now else lastMorphTime m.
Proof.
  unfold handleAutoMorph.
  destruct (autoMorph (settings m)), (isTransitioning m); simpl;
    try reflexivity.
  destruct (Qlt_bool _ _); simpl; [|reflexivity].
  destruct (models m); reflexivity.
Qed.

(** C8 (as the program has it).  [lastMorphTime] has two writers: the
    auto-morph checkbox when it is switched on, and the scheduler at the
    moment it issues a request.  A manual request and the completion of a
    morph, manual or automatic, leave it as it is.  Once the checkbox has
    set it to [t0], no frame at most one interval after [t0] issues a
    request. *)
Theorem C8_last_morph_time_writers (ev : Event) (m : ParticleMorpher) :
  lastMorphTime (step random ease ev m) =
    match ev with
    | AutoMorphChange true now =>
        match particles m with Some _ => now | None => lastMorphTime m end
    | AnimationFrame now =>
        if autoMorph (settings m) && negb (isTransitioning m)
           && Qlt_bool (autoMorphDuration (settings m)) (now - lastMorphTime m)
           && negb (match models m with [] => true | _ => false end)
        then now else lastMorphTime m
    | _ => lastMorphTime m
    end /\
  (forall t0 now m' buf,
     particles m' = Some buf ->
     let armed := onAutoMorphChange true t0 m' in
     lastMorphTime armed = t0 /\
     (now - t0 <= autoMorphDuration (settings armed) ->
      handleAutoMorph random now armed = armed)).
Proof.
  split.
  - destruct ev as [shape | checked now | val | dt | now]; simpl.
    + apply morphTo_frame.
    + unfold onAutoMorphChange, onAutoMorphReset. simpl.
      destruct checked; [destruct (particles m)|]; reflexivity.
    + reflexivity.
    + apply gsap_tick_frame.
    + unfold animate. now rewrite handleAutoMorph_last.
  - intros t0 now m' buf Hbuf. cbv zeta.
    unfold onAutoMorphChange, onAutoMorphReset. simpl. rewrite Hbuf.
    split; [reflexivity|]. intros Hearly.
    unfold handleAutoMorph. simpl in *.
    destruct (isTransitioning m'); [reflexivity|].
    destruct (Qlt_bool (autoMorphDuration (settings m')) (now - t0)) eqn:Hlate;
      [|reflexivity].
    apply Qlt_bool_iff in Hlate. lra.
Qed.

End Properties.

(** ** The interaction field *)

Section ShaderProperties.

Variables gl_sin gl_cos gl_sqrt : Q -> Q.

Lemma smoothstep_zero_beyond (edge x : Q) :
  0 < edge -> edge <= x -> Shader.smoothstep edge 0 x == 0.
Proof.
  intros Hedge Hx. unfold Shader.smoothstep, Shader.clamp.
  set (q := (x - edge) / (0 - edge)).
  assert (Hq : q <= 0).
  { assert (E : q == - ((x - edge) / edge)) by (unfold q; field; lra).
    assert (0 <= (x - edge) / edge) by (apply Qle_shift_div_l; lra).
    lra. }
  assert (Ht : Qmin (Qmax q 0) 1 == 0).
  { destruct (Q.max_spec q 0) as [[_ E1] | [H1 E1]];
      destruct (Q.min_spec (Qmax q 0) 1) as [[_ E2] | [H2 E2]]; lra. }
  cbv zeta. rewrite Ht. ring.
Qed.

Lemma threshold_below_max (radius noise : Q) :
  0 < radius -> 0 <= noise <= 1 ->
  0 < radius * ((12 # 10) + noise * (1 # 2)) /\
  radius * ((12 # 10) + noise * (1 # 2)) <= radius * (17 # 10).
Proof. intros Hr [H0 H1]. split; nra. Qed.

Lemma branch_skipped_when_falloff_zero (u : Shader.Uniforms)
      (position : Shader.vec3) (aRandom : Q) :
  Shader.falloff gl_sqrt u position aRandom == 0 ->
  Shader.main_worldPosition gl_sin gl_cos gl_sqrt u position aRandom =
  Shader.mat_mul (Shader.modelMatrix u)
    (Shader.mkVec4 (Shader.vx position) (Shader.vy position)
                   (Shader.vz position) 1).
Proof.
  intros Hzero. unfold Shader.main_worldPosition. cbv zeta.
  fold (Shader.falloff gl_sqrt u position aRandom).
  destruct (Qlt_bool 0 (Shader.falloff gl_sqrt u position aRandom)) eqn:Hpos;
    [|reflexivity].
  apply Qlt_bool_iff in Hpos. lra.
Qed.

(** C9.  For a positive radius and a per-particle noise in [0, 1], a vertex
    farther from the pointer than [radius * 1.7] has falloff 0, the branch
    that displaces it is skipped and its world position is the one the
    model matrix gives: the displacement is the zero vector.  More
    generally the branch is skipped, for any uniforms, whenever the falloff
    is 0. *)
Theorem C9_no_displacement_beyond_radius
  (u : Shader.Uniforms) (position : Shader.vec3) (aRandom : Q) :
  let world :=
    Shader.mat_mul (Shader.modelMatrix u)
      (Shader.mkVec4 (Shader.vx position) (Shader.vy position)
                     (Shader.vz position) 1) in
  0 < Shader.uRadius u ->
  0 <= aRandom <= 1 ->
  Shader.uRadius u * (17 # 10)
    < Shader.distance gl_sqrt (Shader.xyz world) (Shader.uMouse u) ->
  Shader.falloff gl_sqrt u position aRandom == 0 /\
  Shader.main_worldPosition gl_sin gl_cos gl_sqrt u position aRandom = world /\
  (let d := Shader.interaction_displacement gl_sin gl_cos gl_sqrt u position
              aRandom in
   Shader.vx d == 0 /\ Shader.vy d == 0 /\ Shader.vz d == 0) /\
  (forall u' position' aRandom',
     Shader.falloff gl_sqrt u' position' aRandom' == 0 ->
     Shader.main_worldPosition gl_sin gl_cos gl_sqrt u' position' aRandom' =
     Shader.mat_mul (Shader.modelMatrix u')
       (Shader.mkVec4 (Shader.vx position') (Shader.vy position')
                      (Shader.vz position') 1)).
Proof.
  intros world Hradius Hnoise Hfar.
  destruct (threshold_below_max _ _ Hradius Hnoise) as [Hpos Hmax].
  assert (Hzero : Shader.falloff gl_sqrt u position aRandom == 0).
  { unfold Shader.falloff. cbv zeta. fold world.
    apply smoothstep_zero_beyond; [exact Hpos | lra]. }
  pose proof (branch_skipped_when_falloff_zero u position aRandom Hzero) as Hsame.
  fold world in Hsame.
  split; [exact Hzero|]. split; [exact Hsame|]. split.
  - unfold Shader.interaction_displacement. fold world. rewrite Hsame.
    cbv zeta. simpl. repeat split; ring.
  - intros u' position' aRandom'. apply branch_skipped_when_falloff_zero.
Qed.

End ShaderProperties.

(** * The properties at work on the small installation *)

Lemma C1_witness :
  let busy := morphTo Sample.random "pawn" Sample.at_queen in
  let final := run Sample.random Sample.ease (ticks [1; 1; 1])
                 (morphTo Sample.random "queen" busy) in
  (forall m' shape, isTransitioning m' = true -> shape <> explode ->
                    morphTo Sample.random shape m' = m') /\
  isTransitioning busy = true /\
  morphTo Sample.random "queen" busy = busy /\
  buffer_is final Sample.pawn_cloud /\
  completed_with "pawn" Sample.at_queen final.
Proof.
  apply (C1_request_while_transitioning_is_dropped Sample.random Sample.ease
           Sample.at_queen "pawn" "queen" Sample.pawn_cloud [1; 1; 1]).
  - split; reflexivity.
  - eexists; split; reflexivity.
  - reflexivity.
  - discriminate.
  - discriminate.
  - reflexivity.
  - repeat constructor; discriminate.
  - vm_compute. discriminate.
Defined.

Lemma clouds_agree_at (a b : Float32Array) (i : nat) :
  Forall2 Qeq a b -> nth i a 0 == nth i b 0.
Proof.
  intros H. revert i.
  induction H as [|x y a b Hxy _ IH]; intros [|i]; simpl;
    [reflexivity | reflexivity | exact Hxy | apply IH].
Qed.

(** C1, as claimed, fails: after an explode click in the middle of the morph
    to the pawn, the pawn tween ends and lowers the flag while the explode
    tween is still running.  A request for the queen made then is not
    dropped: it raises the flag and puts a second tween on the timeline, and
    the buffer ends on the queen's cloud, not on the explode cloud of the
    transition that was in progress. *)
Lemma C1_counterexample :
  let history := [GsapTick 3; ShapeClick "pawn"; GsapTick 1;
                  ShapeClick explode; GsapTick 1; GsapTick 1] in
  let running := run Sample.random Sample.ease history Sample.booted in
  let asked := morphTo Sample.random "queen" running in
  let final := run Sample.random Sample.ease (ticks [1; 1; 1]) asked in
  reachable Sample.random Sample.ease false Sample.booted running /\
  isTransitioning running = false /\
  map tw_shape (activeTweens running) = [explode] /\
  isTransitioning asked = true /\
  map tw_shape (activeTweens asked) = [explode; "queen"%string] /\
  currentShape final = "queen"%string /\
  buffer_is final Sample.queen_cloud /\
  ~ buffer_is final (List.concat (map tw_endArray (activeTweens running))).
Proof.
  cbv zeta. split; [apply reachable_run, reach_start|].
  repeat (split; [vm_compute; reflexivity|]). split.
  - eexists. split; [vm_compute; reflexivity|].
    repeat (constructor; [vm_compute; reflexivity|]). constructor.
  - intros (buf & Hp & Hon).
    match type of Hp with
    | particles ?fin = _ =>
        match type of Hon with
        | Forall2 _ _ ?cloud =>
            assert (E : match particles fin with
                        | Some b => Qeq_bool (nth 0 b 0) (nth 0 cloud 0)
                        | None => false
                        end = false) by (vm_compute; reflexivity)
        end
    end.
    rewrite Hp in E. apply Qeq_bool_neq in E. apply E.
    apply (clouds_agree_at _ _ 0%nat Hon).
Qed.


(** C3, as claimed, fails: after an explode morph has run to its end the
    current shape is ["explode"]. *)
Lemma C3_counterexample :
  reachable Sample.random Sample.ease false Sample.booted Sample.after_explode /\
  currentShape Sample.after_explode = explode.
Proof.
  split; [|vm_compute; reflexivity].
  unfold Sample.after_explode, Sample.at_queen.
  do 2 apply reachable_run. apply reach_start.
Qed.

Lemma C3_witness :
  currentShape (run Sample.random Sample.ease (ticks [1; 1; 1])
                  (morphTo Sample.random explode Sample.at_queen)) = explode.
Proof.
  eapply (C3_explode_is_recorded_as_current_shape Sample.random Sample.ease
            Sample.at_queen _ [1; 1; 1]).
  - split; reflexivity.
  - reflexivity.
  - reflexivity.
  - repeat constructor; discriminate.
  - vm_compute. discriminate.
Defined.

(** C4, as claimed, fails for an explode request of size 0: the empty cloud
    is still a cloud, the flag goes up and a tween starts. *)
Lemma C4_counterexample :
  let m := Sample.empty_installation in
  let m' := morphTo Sample.random explode m in
  particleCount (settings m) = 0%nat /\ idle m /\
  isTransitioning m' = true /\
  map tw_endArray (activeTweens m') = [[]].
Proof. cbv zeta. repeat split; reflexivity. Qed.

Lemma C4_witness :
  morphTo Sample.random "rook" Sample.at_queen = Sample.at_queen.
Proof.
  apply (C4_unregistered_shape_is_a_noop Sample.random Sample.at_queen "rook").
  - discriminate.
  - reflexivity.
Defined.

Lemma C5_witness :
  let cloud := fst (getExplodePositions Sample.random Sample.at_queen) in
  List.length cloud = 6%nat /\
  nth 4 cloud 0 = (Sample.random 24 - (1 # 2)) * 500 /\
  -250 <= nth 4 cloud 0 /\ nth 4 cloud 0 <= 250 /\
  randomCalls (snd (getExplodePositions Sample.random Sample.at_queen)) = 26%nat.
Proof.
  apply (C5_explode_cloud_fills_the_cube Sample.random Sample.at_queen 4).
  - vm_compute. lia.
  - vm_compute. split; [discriminate | reflexivity].
Defined.


Lemma C7_witness :
  handleAutoMorph Sample.random 5001 Sample.at_queen =
    set_lastMorphTime 5001 (morphTo Sample.random "pawn" Sample.at_queen) /\
  currentShape
    (run Sample.random Sample.ease
       (AnimationFrame 10002 :: ticks [3])
       (run Sample.random Sample.ease (AnimationFrame 5001 :: ticks [3])
          Sample.at_queen)) = "queen"%string.
Proof.
  destruct (C7_auto_morph_schedule Sample.random Sample.ease 5001
              Sample.at_queen eq_refl) as (_ & Hdue & _ & Hcycle).
  split.
  - destruct (Hdue eq_refl) as (target & Hnth & Hissue & _).
    vm_compute in Hnth. injection Hnth as <-. exact Hissue.
  - eapply (Hcycle Sample.at_queen _ 5001 10002 [3] [3]).
    + split; reflexivity.
    + reflexivity.
    + reflexivity.
    + reflexivity.
    + reflexivity.
    + reflexivity.
    + reflexivity.
    + reflexivity.
    + repeat constructor; discriminate.
    + vm_compute. discriminate.
    + repeat constructor; discriminate.
    + vm_compute. discriminate.
Defined.

(** C8, as claimed, fails: the checkbox is switched on at 1000 ms, a manual
    morph to the pawn is requested and has completed by the frame at
    5000 ms; the timestamp is still 1000, and the frame at 6001 ms starts
    the next automatic morph. *)
Lemma C8_counterexample :
  let history := [AutoMorphChange true 1000; ShapeClick "pawn";
                  AnimationFrame 2000; GsapTick 3; AnimationFrame 5000] in
  let done := run Sample.random Sample.ease history Sample.at_queen in
  let next := step Sample.random Sample.ease (AnimationFrame 6001) done in
  console done = ["pawn"; "queen"]%string /\ idle done /\
  lastMorphTime done = 1000 /\
  isTransitioning next = true /\
  map tw_shape (activeTweens next) = ["queen"]%string /\
  lastMorphTime next = 6001.
Proof. cbv zeta. unfold idle. repeat split; reflexivity. Qed.

Lemma C9_witness :
  Shader.main_worldPosition Sample.gl_sin Sample.gl_cos Sample.gl_sqrt
    Sample.uniforms (Shader.mkVec3 6 0 0) (1 # 2) =
  Shader.mat_mul Sample.identity (Shader.mkVec4 6 0 0 1).
Proof.
  refine (proj1 (proj2
    (C9_no_displacement_beyond_radius Sample.gl_sin Sample.gl_cos
       Sample.gl_sqrt Sample.uniforms (Shader.mkVec3 6 0 0) (1 # 2) _ _ _))).
  - reflexivity.
  - split; discriminate.
  - reflexivity.
Defined.

Lemma C10_witness :
  currentShape Sample.after_explode = explode /\
  indexOf (Object_keys (models Sample.after_explode)) explode = (-1)%Z /\
  handleAutoMorph Sample.random 9000 Sample.after_explode =
  set_lastMorphTime 9000 (morphTo Sample.random "queen" Sample.after_explode).
Proof.
  split; [reflexivity|].
  apply (C10_unknown_current_shape_restarts_the_cycle Sample.random 9000
           Sample.after_explode "queen" ["pawn"%string]).
  - reflexivity.
  - reflexivity.
  - reflexivity.
  - reflexivity.
  - intros [H | [H | []]]; discriminate.
Defined.

(** * Further properties of the program *)

Section MoreProperties.

Variable random : nat -> Q.
Variable ease : Q -> Q.

Lemma handleAutoMorph_frame (now : Q) (m : ParticleMorpher) :
  let m' := handleAutoMorph random now m in
  settings m' = settings m /\ particles m' = particles m /\
  models m' = models m /\ currentShape m' = currentShape m /\
  console m' = console m.
Proof.
  unfold handleAutoMorph.
  destruct (negb (autoMorph (settings m)) || isTransitioning m);
    [repeat split|].
  destruct (Qlt_bool _ _); [|repeat split].
  destruct (0 <? _)%Z; [|repeat split].
  match goal with
  | |- context [morphTo random ?k m] =>
      destruct (morphTo_frame random k m) as (H1 & H2 & H3 & H4 & _ & H6)
  end.
  simpl. repeat split; assumption.
Qed.

Lemma step_keeps_layout (ev : Event) (m : ParticleMorpher) :
  particleCount (settings (step random ease ev m)) = particleCount (settings m) /\
  option_map (@List.length Q) (particles (step random ease ev m)) =
  option_map (@List.length Q) (particles m).
Proof.
  destruct ev as [shape | checked now | val | dt | now]; simpl.
  - destruct (morphTo_frame random shape m) as (Hs & Hp & _).
    now rewrite Hs, Hp.
  - unfold onAutoMorphChange, onAutoMorphReset. simpl.
    destruct checked; [destruct (particles m) eqn:Hp; simpl; rewrite ?Hp|];
      split; reflexivity.
  - split; reflexivity.
  - destruct (gsap_tick_frame ease dt m) as (Hs & _ & _ & _ & Hp & _).
    now rewrite Hs, Hp.
  - unfold animate.
    destruct (handleAutoMorph_frame now (updateStats m)) as (Hs & Hp & _).
    now rewrite Hs, Hp.
Qed.

Lemma boot_layout s queenPoints pawnPoints :
  let m := boot random s queenPoints pawnPoints in
  settings m = s /\
  particles m = Some (fill_positions random (particleCount s) uuid_draws).
Proof.
  unfold boot, init.
  match goal with
  | |- context [morphTo random ?k ?m0] =>
      destruct (morphTo_frame random k m0) as (Hs & Hp & _)
  end.
  cbv zeta. rewrite Hs, Hp.
  destruct queenPoints, pawnPoints; split; reflexivity.
Qed.

(** X1.  [setupParticles] allocates three coordinates per particle.  The
    geometry's UUID takes the first four random numbers of the call;
    coordinate [j] is made from the one that comes [j] places after them,
    like an explode coordinate, and so lies in the cube [-250, 250].  The
    call draws [4 * particleCount + 12] random numbers in all: the
    positions, one [aRandom] per particle, and the UUIDs of the geometry,
    the material and the [Points] object. *)
Theorem X1_start_cloud_in_cube (m : ParticleMorpher) (j : nat) :
  (j < 3 * particleCount (settings m))%nat ->
  0 <= random (randomCalls m + 4 + j) < 1 ->
  exists buf,
    particles (setupParticles random m) = Some buf /\
    List.length buf = (3 * particleCount (settings m))%nat /\
    nth j buf 0 = (random (randomCalls m + 4 + j) - (1 # 2)) * 500 /\
    -250 <= nth j buf 0 /\ nth j buf 0 <= 250 /\
    randomCalls (setupParticles random m) =
      (randomCalls m + 4 * particleCount (settings m) + 12)%nat.
Proof.
  intros Hj Hr. unfold setupParticles, uuid_draws. simpl.
  eexists; split; [reflexivity|].
  rewrite fill_positions_length, (fill_positions_nth _ _ _ _ Hj).
  destruct (spread_range _ Hr) as [Hlo Hhi].
  repeat split; try assumption; [now apply Qlt_le_weak | lia].
Qed.

Lemma run_keeps_layout (evs : list Event) : forall m0,
  particleCount (settings (run random ease evs m0)) =
    particleCount (settings m0) /\
  option_map (@List.length Q) (particles (run random ease evs m0)) =
    option_map (@List.length Q) (particles m0).
Proof.
  induction evs as [|ev evs IH]; intros m0; simpl; [now split|].
  destruct (IH (step random ease ev m0)) as [H1 H2].
  destruct (step_keeps_layout ev m0) as [H3 H4].
  split; congruence.
Qed.

Lemma run_models (evs : list Event) : forall m0,
  models (run random ease evs m0) = models m0.
Proof.
  induction evs as [|ev evs IH]; intros m0; simpl; [reflexivity|].
  rewrite IH. apply step_models.
Qed.

Lemma booted_buffer s queenPoints pawnPoints (evs : list Event) :
  let m := run random ease evs (boot random s queenPoints pawnPoints) in
  particleCount (settings m) = particleCount s /\
  exists buf, particles m = Some buf /\
              List.length buf = (3 * particleCount s)%nat.
Proof.
  cbv zeta.
  destruct (run_keeps_layout evs (boot random s queenPoints pawnPoints))
    as [Hn Hlen].
  destruct (boot_layout s queenPoints pawnPoints) as [Hs Hp].
  rewrite Hs in Hn. rewrite Hp in Hlen. simpl in Hlen.
  split; [exact Hn|].
  destruct (particles (run random ease evs (boot random s queenPoints pawnPoints)))
    as [buf|]; [|discriminate].
  exists buf. split; [reflexivity|].
  simpl in Hlen. injection Hlen as Hlen.
  now rewrite fill_positions_length in Hlen.
Qed.

(** X2.  Whatever the user and the timers do after [init], the position
    buffer exists and keeps its [3 * particleCount] entries, and
    [particleCount] keeps the value it was constructed with; a cloud made by
    [getExplodePositions] in any such state has exactly the buffer's length,
    so an explode tween moves every coordinate. *)
Theorem X2_buffer_layout_is_invariant
  (s : ParticleSettings) (queenPoints pawnPoints : option Float32Array)
  (evs : list Event) :
  let m := run random ease evs (boot random s queenPoints pawnPoints) in
  particleCount (settings m) = particleCount s /\
  exists buf,
    particles m = Some buf /\
    List.length buf = (3 * particleCount s)%nat /\
    List.length (fst (getExplodePositions random m)) = List.length buf.
Proof.
  cbv zeta.
  destruct (booted_buffer s queenPoints pawnPoints evs) as (Hn & buf & Hp & Hl).
  split; [exact Hn|]. exists buf. repeat split; try assumption.
  unfold getExplodePositions; simpl. rewrite fill_positions_length. congruence.
Qed.

Lemma obj_get_set_same {A} (o : JsObject A) (k : string) (v : A) :
  obj_get (obj_set o k v) k = Some v.
Proof.
  induction o as [|[k' v'] rest IH]; simpl.
  - now rewrite String.eqb_refl.
  - destruct (String.eqb k' k) eqn:E; simpl; rewrite E; [reflexivity | exact IH].
Qed.

Lemma obj_get_set_other {A} (o : JsObject A) (k k' : string) (v : A) :
  k <> k' -> obj_get (obj_set o k v) k' = obj_get o k'.
Proof.
  intros Hne. induction o as [|[k0 v0] rest IH]; simpl.
  - apply String.eqb_neq in Hne. now rewrite Hne.
  - destruct (String.eqb k0 k) eqn:E; simpl.
    + apply String.eqb_eq in E. subst k0.
      apply String.eqb_neq in Hne. now rewrite Hne.
    + now rewrite IH.
Qed.

Lemma keys_set_fresh {A} (o : JsObject A) (k : string) (v : A) :
  obj_get o k = None -> Object_keys (obj_set o k v) = Object_keys o ++ [k].
Proof.
  induction o as [|[k0 v0] rest IH]; simpl; [reflexivity|].
  destruct (String.eqb k0 k); [discriminate|].
  intros H. simpl. now rewrite (IH H).
Qed.

Lemma loadModels_lookup
  (m : ParticleMorpher) (queenPoints pawnPoints : option Float32Array) :
  models m = [] ->
  let m' := loadModels queenPoints pawnPoints m in
  Object_keys (models m') =
    (match queenPoints with Some _ => ["queen"%string] | None => [] end)
    ++ (match pawnPoints with Some _ => ["pawn"%string] | None => [] end) /\
  obj_get (models m') "queen" = queenPoints /\
  obj_get (models m') "pawn" = pawnPoints /\
  (forall name, name <> "queen"%string -> name <> "pawn"%string ->
                obj_get (models m') name = None).
Proof.
  intros Hempty. unfold loadModels.
  assert (Hqp : "queen"%string <> "pawn"%string) by discriminate.
  assert (Hpq : "pawn"%string <> "queen"%string) by discriminate.
  destruct queenPoints as [q|], pawnPoints as [p|];
    cbv zeta; try unfold set_models; cbn [models];
    rewrite Hempty; repeat split; try (intros name Hq Hp);
    repeat first
      [ rewrite obj_get_set_same
      | rewrite obj_get_set_other by congruence
      | rewrite keys_set_fresh
          by (rewrite ?obj_get_set_other by congruence; reflexivity) ];
    reflexivity.
Qed.

(** X3.  [loadModels] on an empty library registers the queen before the
    pawn, each only if its file gave points: the keys [Object.keys] reports
    afterwards are those that loaded, in that order, each key gives back the
    points stored under it, and no other name has an entry. *)
Theorem X3_loadModels_registers_in_order
  (m : ParticleMorpher) (queenPoints pawnPoints : option Float32Array) :
  models m = [] ->
  let m' := loadModels queenPoints pawnPoints m in
  Object_keys (models m') =
    (match queenPoints with Some _ => ["queen"%string] | None => [] end)
    ++ (match pawnPoints with Some _ => ["pawn"%string] | None => [] end) /\
  obj_get (models m') "queen" = queenPoints /\
  obj_get (models m') "pawn" = pawnPoints /\
  (forall name, name <> "queen"%string -> name <> "pawn"%string ->
                obj_get (models m') name = None).
Proof. exact (loadModels_lookup m queenPoints pawnPoints). Qed.

(** X4.  The speed slider writes [settings.animationSpeed] and nothing else:
    a morph already under way keeps the duration it was started with and
    completes once the ticks cover that duration, whatever positive speed is
    chosen meanwhile; the next morph started from rest lasts
    [morphDuration / val]. *)
Theorem X4_speed_applies_to_later_morphs_only
  (m : ParticleMorpher) (shape : string) (buf : Float32Array) (val : Q)
  (dts : list Q) :
  idle m -> particles m = Some buf ->
  shape = explode \/ obj_get (models m) shape <> None ->
  0 < morphDuration (settings m) / animationSpeed (settings m) ->
  0 < val ->
  Forall (Qle 0) dts ->
  morphDuration (settings m) / animationSpeed (settings m) <= total_time dts ->
  let busy := morphTo random shape m in
  let slowed := step random ease (SpeedInput val) busy in
  activeTweens slowed = activeTweens busy /\
  completed_with shape slowed (run random ease (ticks dts) slowed) /\
  (forall next, next = explode \/ obj_get (models m) next <> None ->
     map tw_duration
       (activeTweens
          (morphTo random next (run random ease (ticks dts) slowed))) =
     [morphDuration (settings m) / val]).
Proof.
  intros Hidle Hbuf Hres Hdur Hval Hpos Hcover. cbv zeta.
  destruct (morphTo_from_rest random shape m buf Hidle Hbuf Hres)
    as (cloud & Htw & _ & _).
  destruct (morphTo_frame random shape m) as (Hs & Hp & Hm & _).
  set (busy := morphTo random shape m) in *.
  set (slowed := step random ease (SpeedInput val) busy).
  assert (Hslow : activeTweens slowed = activeTweens busy) by reflexivity.
  split; [exact Hslow|].
  rewrite Htw in Hslow.
  pose proof (single_tween_completes random ease dts _ slowed Hslow Hpos) as Hc.
  simpl in Hc.
  assert (Hdone : completed_with shape slowed
                    (run random ease (ticks dts) slowed)) by (apply Hc; lra).
  split; [exact Hdone|].
  intros next Hnext.
  destruct Hdone as (Hnil & Hflag & _ & _ & Hset & Hmod & _).
  destruct (run_ticks_keeps_buffer random ease dts slowed buf) as [buf' Hbuf'].
  { unfold slowed; simpl. now rewrite Hp. }
  destruct (morphTo_from_rest random next
              (run random ease (ticks dts) slowed) buf') as (cloud' & Htw' & _).
  - now split.
  - exact Hbuf'.
  - destruct Hnext as [-> | Hnext]; [now left | right].
    rewrite Hmod. unfold slowed; simpl. now rewrite Hm.
  - rewrite Htw'. simpl. rewrite Hset. unfold slowed; simpl.
    now rewrite Hs.
Qed.

Lemma step_without_models (ev : Event) (m : ParticleMorpher) :
  not_explode_click ev = true -> idle m -> models m = [] ->
  idle (step random ease ev m) /\ models (step random ease ev m) = [] /\
  particles (step random ease ev m) = particles m /\
  currentShape (step random ease ev m) = currentShape m /\
  console (step random ease ev m) = console m.
Proof.
  intros Hev [Hnil Hflag] Hmodels.
  destruct ev as [shape | checked now | val | dt | now]; simpl in *.
  - apply negb_true_iff in Hev.
    rewrite (morphTo_missing random shape m Hev) by (now rewrite Hmodels).
    repeat split; assumption.
  - unfold onAutoMorphChange, onAutoMorphReset. simpl.
    destruct checked; [destruct (particles m) eqn:Hp; simpl; rewrite ?Hp|];
      repeat split; assumption.
  - repeat split; assumption.
  - rewrite (gsap_tick_idle ease dt m Hnil). repeat split; assumption.
  - unfold animate, handleAutoMorph. simpl. rewrite Hflag, Hmodels. simpl.
    destruct (negb (autoMorph (settings m))); simpl;
      [|destruct (Qlt_bool _ _)]; repeat split; assumption.
Qed.

(** X5.  When neither model loaded, the library stays empty and only the
    explode button can move the particles: no sequence of shape clicks on
    other buttons, checkbox and slider changes, ticks and frames, the
    scheduler's included, starts a tween, writes the buffer or changes the
    current shape. *)
Theorem X5_nothing_moves_without_models
  (m : ParticleMorpher) (evs : list Event) :
  idle m -> models m = [] ->
  forallb not_explode_click evs = true ->
  let m' := run random ease evs m in
  idle m' /\ particles m' = particles m /\
  currentShape m' = currentShape m /\ console m' = console m.
Proof.
  revert m. induction evs as [|ev evs IH]; intros m Hidle Hmodels Hevs;
    simpl in *; [repeat split; apply Hidle|].
  apply andb_true_iff in Hevs as [Hev Hevs].
  destruct (step_without_models ev m Hev Hidle Hmodels)
    as (Hidle' & Hmodels' & Hp & Hc & Hl).
  destruct (IH _ Hidle' Hmodels' Hevs) as (H1 & H2 & H3 & H4).
  repeat split; try apply H1; congruence.
Qed.

(** ** Tweens that meet *)

Lemma write_values_same target : forall start endArray ratio,
  Forall2 Qeq start endArray ->
  Forall2 Qeq target endArray ->
  Forall2 Qeq (write_values target start endArray ratio) endArray.
Proof.
  induction target as [|t ts IH]; intros start endArray ratio Hsame Hon;
    destruct Hsame as [|s e ss es Hse Hrest]; inversion Hon; subst;
    simpl; constructor.
  - apply Qeq_bool_iff in Hse. rewrite Hse. assumption.
  - now apply IH.
Qed.

Lemma still_tween_keeps_buffer (dts : list Q) : forall tw m buf,
  activeTweens m = [tw] ->
  particles m = Some buf ->
  Forall2 Qeq buf (tw_endArray tw) ->
  match tw_start tw with
  | Some s => Forall2 Qeq s (tw_endArray tw)
  | None => True
  end ->
  buffer_is (run random ease (ticks dts) m) (tw_endArray tw).
Proof.
  induction dts as [|dt dts IH]; intros tw m buf Htw Hbuf Hsame Hstart.
  - simpl. now exists buf.
  - simpl.
    assert (Hs : Forall2 Qeq
                   (match tw_start tw with Some s => s | None => buf end)
                   (tw_endArray tw))
      by (destruct (tw_start tw); assumption).
    destruct (Qle_bool (tw_duration tw) (tw_time tw + dt)) eqn:Hfin.
    + rewrite (gsap_tick_single_done ease dt tw m Htw Hfin).
      rewrite run_ticks_idle by reflexivity.
      unfold buffer_is; simpl. rewrite Hbuf. simpl.
      eexists; split; [reflexivity|]. now apply write_values_same.
    + rewrite (gsap_tick_single_running ease dt tw m Htw Hfin).
      rewrite Hbuf. simpl.
      eapply (IH (advanced dt buf tw)); simpl; try reflexivity.
      * now apply write_values_same.
      * exact Hs.
Qed.

(** X6.  A request, made at rest, for the shape the buffer already shows
    still starts a tween and raises the flag, but the tween's start and end
    coincide: after any number of ticks the buffer holds that same cloud, and
    once the ticks cover the duration the completion is logged once. *)
Theorem X6_morph_to_shown_shape_keeps_buffer
  (m : ParticleMorpher) (shape : string) (cloud : Float32Array) (dts : list Q) :
  idle m -> buffer_is m cloud ->
  obj_get (models m) shape = Some cloud -> shape <> explode ->
  let busy := morphTo random shape m in
  isTransitioning busy = true /\
  List.length (activeTweens busy) = 1%nat /\
  buffer_is (run random ease (ticks dts) busy) cloud /\
  (0 < morphDuration (settings m) / animationSpeed (settings m) ->
   Forall (Qle 0) dts ->
   morphDuration (settings m) / animationSpeed (settings m) <= total_time dts ->
   completed_with shape busy (run random ease (ticks dts) busy)).
Proof.
  intros Hidle [buf [Hbuf Hsame]] Hget Hne. cbv zeta.
  destruct (morphTo_from_rest random shape m buf Hidle Hbuf)
    as (cloud' & Htw & Hflag & Hcloud); [right; congruence|].
  rewrite (Hcloud Hne) in Hget. injection Hget as ->.
  destruct (morphTo_frame random shape m) as (_ & Hp & _).
  split; [exact Hflag|]. split; [now rewrite Htw|]. split.
  - apply (still_tween_keeps_buffer dts _ _ buf Htw); simpl; auto.
    now rewrite Hp.
  - intros Hdur Hpos Hcover.
    apply request_from_rest_completes with (buf := buf); auto.
    right. rewrite (Hcloud Hne). discriminate.
Qed.

(** One tick with two tweens on the timeline, field by field. *)
Lemma gsap_tick_two (dt : Q) (tw1 tw2 : Tween) (m : ParticleMorpher) buf :
  activeTweens m = [tw1; tw2] -> particles m = Some buf ->
  let f1 := Qle_bool (tw_duration tw1) (tw_time tw1 + dt) in
  let f2 := Qle_bool (tw_duration tw2) (tw_time tw2 + dt) in
  let buf1 :=
    write_values buf (match tw_start tw1 with Some s => s | None => buf end)
      (tw_endArray tw1)
      (if f1 then 1 else ease ((tw_time tw1 + dt) / tw_duration tw1)) in
  let buf2 :=
    write_values buf1 (match tw_start tw2 with Some s => s | None => buf1 end)
      (tw_endArray tw2)
      (if f2 then 1 else ease ((tw_time tw2 + dt) / tw_duration tw2)) in
  let m' := gsap_tick ease dt m in
  particles m' = Some buf2 /\
  activeTweens m' =
    (if f1 then [] else [advanced dt buf tw1])
    ++ (if f2 then [] else [advanced dt buf1 tw2]) /\
  console m' =
    (if f2 then [tw_shape tw2] else [])
    ++ (if f1 then [tw_shape tw1] else []) ++ console m /\
  currentShape m' =
    (if f2 then tw_shape tw2 else if f1 then tw_shape tw1 else currentShape m) /\
  isTransitioning m' = (if f1 || f2 then false else isTransitioning m).
Proof.
  intros Htw Hbuf. cbv zeta. unfold gsap_tick. rewrite Htw. simpl.
  unfold tween_render.
  destruct (Qle_bool (tw_duration tw1) (tw_time tw1 + dt));
    destruct (Qle_bool (tw_duration tw2) (tw_time tw2 + dt));
    simpl; rewrite Hbuf; simpl; repeat split.
Qed.

Lemma moving_rests (start endArray : Float32Array) :
  all_to_move start endArray ->
  forall buf, rests_on_target buf start endArray.
Proof.
  induction 1 as [|s e ss es Hse _ IH]; intros [|b bs]; simpl; auto.
  split; [intros H; now elim Hse | apply IH].
Qed.

(** Two tweens on the timeline, the older one due to end no later than the
    younger, and the younger with every coordinate to move: both run out,
    the younger's callback fires last and the buffer stops on the younger's
    end array. *)
Lemma two_tweens_finish (dts : list Q) : forall tw1 tw2 m buf,
  activeTweens m = [tw1; tw2] ->
  particles m = Some buf ->
  List.length buf = List.length (tw_endArray tw2) ->
  all_to_move
    (match tw_start tw2 with
     | Some s => s
     | None => match dts with
               | dt :: _ => after_render ease dt tw1 buf
               | [] => buf
               end
     end) (tw_endArray tw2) ->
  Forall (Qle 0) dts ->
  tw_time tw1 < tw_duration tw1 ->
  tw_time tw2 < tw_duration tw2 ->
  tw_duration tw1 - tw_time tw1 <= tw_duration tw2 - tw_time tw2 ->
  tw_duration tw2 <= tw_time tw2 + total_time dts ->
  let final := run random ease (ticks dts) m in
  idle final /\ currentShape final = tw_shape tw2 /\
  console final = tw_shape tw2 :: tw_shape tw1 :: console m /\
  buffer_is final (tw_endArray tw2).
Proof.
  induction dts as [|dt dts IH];
    intros tw1 tw2 m buf Htw Hbuf Hlen Hmove Hpos Hlt1 Hlt2 Hrem Hcover.
  - simpl in Hcover. exfalso. lra.
  - inversion Hpos as [|? ? Hdt Hpos']; subst.
    intros final. subst final. simpl run.
    destruct (gsap_tick_two dt tw1 tw2 m buf Htw Hbuf)
      as (Hp & Ha & Hc & Hs & Hf).
    set (m1 := gsap_tick ease dt m) in *.
    fold (after_render ease dt tw1 buf) in Hp, Ha.
    set (buf1 := after_render ease dt tw1 buf) in *.
    set (start2 := match tw_start tw2 with Some s => s | None => buf1 end) in *.
    assert (Hlen1 : List.length buf1 = List.length buf)
      by (unfold buf1, after_render; apply write_values_length).
    assert (Hstart2 : List.length start2 = List.length buf1).
    { rewrite (Forall2_length Hmove). congruence. }
    simpl in Hcover.
    destruct (Qle_bool (tw_duration tw1) (tw_time tw1 + dt)) eqn:Hfin1;
      destruct (Qle_bool (tw_duration tw2) (tw_time tw2 + dt)) eqn:Hfin2;
      simpl in Ha, Hc, Hs, Hf.
    + (* both end in this tick *)
      rewrite run_ticks_idle by exact Ha.
      repeat split; try assumption.
      exists (write_values buf1 start2 (tw_endArray tw2) 1).
      split; [exact Hp|].
      apply write_values_final; [exact Hstart2 | congruence |].
      now apply moving_rests.
    + (* the older one ends, the younger runs on alone *)
      apply Qle_bool_false in Hfin2.
      pose proof (single_tween_completes random ease dts _ m1 Ha Hpos') as Hdone.
      pose proof (single_tween_buffer random ease dts _ m1 _ Ha Hp) as Hbuffer.
      simpl in Hdone, Hbuffer.
      destruct Hdone as (H1 & H2 & H3 & H4 & _); [lra | lra |].
      repeat split; try assumption.
      * now rewrite H4, Hc.
      * apply Hbuffer; rewrite ?write_values_length; try assumption;
          try congruence; try lra.
        split; [|now apply moving_rests].
        first [ exact Hstart2
              | rewrite ?write_values_length; exact Hstart2 ].
    + (* the younger cannot end before the older *)
      apply Qle_bool_false in Hfin1. apply Qle_bool_iff in Hfin2.
      exfalso. lra.
    + (* both run on *)
      apply Qle_bool_false in Hfin1. apply Qle_bool_false in Hfin2.
      destruct (IH _ _ m1 _ Ha Hp) as (Hi & Hcur & Hlog & Hb); simpl;
        rewrite ?write_values_length; try assumption; try congruence; try lra.
      repeat split; try apply Hi; try assumption.
      now rewrite Hlog, Hc.
Qed.

(** X7.  An explode click during a morph.  Suppose the running tween has no
    more time left than a full new duration (as whenever the speed was not
    raised meanwhile) and, when the explode tween first renders, no
    coordinate of the buffer is on its explode target already.  Then both
    tweens run out, the explode tween last: the program is at rest with
    ["explode"] as current shape, the earlier shape logged before it, and
    the buffer on the explode cloud made at the click. *)
Theorem X7_explode_during_morph_wins
  (m : ParticleMorpher) (tw : Tween) (buf : Float32Array) (dt : Q)
  (dts : list Q) :
  activeTweens m = [tw] -> particles m = Some buf ->
  List.length buf = (3 * particleCount (settings m))%nat ->
  tw_time tw < tw_duration tw ->
  tw_duration tw - tw_time tw
    <= morphDuration (settings m) / animationSpeed (settings m) ->
  0 < morphDuration (settings m) / animationSpeed (settings m) ->
  all_to_move (after_render ease dt tw buf)
              (fst (getExplodePositions random m)) ->
  Forall (Qle 0) (dt :: dts) ->
  morphDuration (settings m) / animationSpeed (settings m)
    <= total_time (dt :: dts) ->
  let final := run random ease (ShapeClick explode :: ticks (dt :: dts)) m in
  idle final /\ currentShape final = explode /\
  console final = explode :: tw_shape tw :: console m /\
  buffer_is final (fst (getExplodePositions random m)).
Proof.
  intros Htw Hbuf Hlen Hlt Hrem Hdur Hmove Hpos Hcover.
  intros final. subst final.
  change (run random ease (ShapeClick explode :: ticks (dt :: dts)) m)
    with (run random ease (ticks (dt :: dts)) (morphTo random explode m)).
  rewrite (morphTo_explode random m buf Hbuf).
  match goal with
  | |- context [run random ease (ticks (dt :: dts)) ?m1] => set (both := m1)
  end.
  set (cloud := fill_positions random (particleCount (settings m)) (randomCalls m)).
  set (tw2 := {| tw_shape := explode; tw_endArray := cloud;
                 tw_duration :=
                   morphDuration (settings m) / animationSpeed (settings m);
                 tw_time := 0; tw_start := None |}).
  assert (Hboth : activeTweens both = [tw; tw2]).
  { unfold both, gsap_to; simpl. rewrite Htw. reflexivity. }
  assert (Hl : List.length buf = List.length (tw_endArray tw2)).
  { simpl. unfold cloud. rewrite fill_positions_length. exact Hlen. }
  assert (Hrem' : tw_duration tw - tw_time tw <= tw_duration tw2 - tw_time tw2)
    by (simpl; lra).
  assert (Hcover' : tw_duration tw2 <= tw_time tw2 + total_time (dt :: dts))
    by (simpl in *; lra).
  destruct (two_tweens_finish (dt :: dts) tw tw2 both buf Hboth Hbuf Hl Hmove
              Hpos Hlt Hdur Hrem' Hcover') as (Hi & Hs & Hc & Hb).
  repeat split; try apply Hi; assumption.
Qed.

(** ** No overshoot *)

Lemma write_values_nth target : forall start endArray ratio i,
  (i < List.length target)%nat -> (i < List.length start)%nat ->
  (i < List.length endArray)%nat ->
  nth i (write_values target start endArray ratio) 0 =
  if Qeq_bool (nth i start 0) (nth i endArray 0) then nth i target 0
  else lerp (nth i start 0) (nth i endArray 0) ratio.
Proof.
  induction target as [|t ts IH]; intros [|s ss] [|e es] ratio i Ht Hs He;
    simpl in *; try lia.
  destruct i as [|i]; [reflexivity|]. apply IH; lia.
Qed.

Lemma lerp_between (s e r : Q) :
  0 <= r <= 1 -> Qmin s e <= lerp s e r /\ lerp s e r <= Qmax s e.
Proof.
  intros [H0 H1]. unfold lerp.
  destruct (Q.min_spec s e) as [[Hlt Em] | [Hle Em]];
    destruct (Q.max_spec s e) as [[Hlt' EM] | [Hle' EM]]; rewrite Em, EM.
  - assert (0 <= (e - s) * r) by (apply Qmult_le_0_compat; lra).
    assert (0 <= (e - s) * (1 - r)) by (apply Qmult_le_0_compat; lra).
    split; lra.
  - assert (e == s) by lra.
    assert (E : (e - s) * r == 0) by (setoid_replace (e - s) with 0 by lra; ring).
    split; lra.
  - assert (e == s) by lra.
    assert (E : (e - s) * r == 0) by (setoid_replace (e - s) with 0 by lra; ring).
    split; lra.
  - assert (0 <= (s - e) * r) by (apply Qmult_le_0_compat; lra).
    assert (0 <= (s - e) * (1 - r)) by (apply Qmult_le_0_compat; lra).
    split; lra.
Qed.

(** X18.  While a single tween runs, a tick never carries a coordinate the
    tween moves (one whose start value differs from its target) outside the
    span between the value it started from and its target, provided the
    easing curve, at the progress reached, returns a value between 0 and 1.
    A coordinate whose start value is its target is not written at all. *)
Theorem X18_tween_stays_between_start_and_target
  (m : ParticleMorpher) (tw : Tween) (buf : Float32Array) (dt : Q) (i : nat) :
  let start := match tw_start tw with Some s => s | None => buf end in
  activeTweens m = [tw] -> particles m = Some buf ->
  List.length buf = List.length (tw_endArray tw) ->
  List.length start = List.length buf ->
  (i < List.length buf)%nat ->
  0 <= ease ((tw_time tw + dt) / tw_duration tw) <= 1 ->
  exists buf',
    particles (gsap_tick ease dt m) = Some buf' /\
    (~ nth i start 0 == nth i (tw_endArray tw) 0 ->
     Qmin (nth i start 0) (nth i (tw_endArray tw) 0) <= nth i buf' 0 /\
     nth i buf' 0 <= Qmax (nth i start 0) (nth i (tw_endArray tw) 0)) /\
    (nth i start 0 == nth i (tw_endArray tw) 0 -> nth i buf' 0 = nth i buf 0).
Proof.
  intros start Htw Hbuf Hlen Hstart Hi Hease.
  assert (Hcase : forall ratio, 0 <= ratio <= 1 ->
            let v := nth i (write_values buf start (tw_endArray tw) ratio) 0 in
            (~ nth i start 0 == nth i (tw_endArray tw) 0 ->
             Qmin (nth i start 0) (nth i (tw_endArray tw) 0) <= v /\
             v <= Qmax (nth i start 0) (nth i (tw_endArray tw) 0)) /\
            (nth i start 0 == nth i (tw_endArray tw) 0 -> v = nth i buf 0)).
  { intros ratio Hr. cbv zeta. rewrite write_values_nth by lia.
    destruct (Qeq_bool (nth i start 0) (nth i (tw_endArray tw) 0)) eqn:E.
    - split; [|reflexivity]. intros Hne. apply Qeq_bool_iff in E. now elim Hne.
    - split; [intros _; now apply lerp_between|].
      intros He. apply Qeq_bool_iff in He. congruence. }
  destruct (Qle_bool (tw_duration tw) (tw_time tw + dt)) eqn:Hfin.
  - rewrite (gsap_tick_single_done ease dt tw m Htw Hfin). simpl.
    rewrite Hbuf. simpl. eexists; split; [reflexivity|].
    fold start. apply Hcase. split; lra.
  - rewrite (gsap_tick_single_running ease dt tw m Htw Hfin). simpl.
    rewrite Hbuf. simpl. eexists; split; [reflexivity|].
    fold start. apply Hcase. exact Hease.
Qed.

(** ** The cycle *)

Lemma indexOf_from_nth (keys : list string) : forall i k d,
  NoDup keys -> (i < List.length keys)%nat ->
  indexOf_from keys (nth i keys d) k = (k + Z.of_nat i)%Z.
Proof.
  induction keys as [|y rest IH]; intros i k d Hnd Hi; simpl in *; [lia|].
  inversion Hnd as [|? ? Hnot Hnd']; subst.
  destruct i as [|i].
  - rewrite String.eqb_refl. lia.
  - destruct (String.eqb y (nth i rest d)) eqn:E.
    + apply String.eqb_eq in E. elim Hnot. rewrite E. apply nth_In. lia.
    + rewrite IH by (auto; lia). lia.
Qed.

Lemma obj_get_of_key {A} (o : JsObject A) (k : string) :
  In k (Object_keys o) -> obj_get o k <> None.
Proof.
  induction o as [|[k' v] rest IH]; simpl; [tauto|].
  intros [-> | Hin].
  - rewrite String.eqb_refl. discriminate.
  - destruct (String.eqb k' k); [discriminate | now apply IH].
Qed.

(** X8.  The scheduler walks the registered shapes in a ring: with the
    current shape at index [i] of the keys (which an object never repeats),
    a due frame at rest followed by the ticks of one morph leaves the shape
    at index [(i + 1) mod count] current, the program at rest and the
    timestamp at the frame's time. *)
Theorem X8_auto_morph_advances_round_the_ring
  (m : ParticleMorpher) (buf : Float32Array) (now : Q) (dts : list Q) (i : nat) :
  let keys := Object_keys (models m) in
  idle m -> autoMorph (settings m) = true -> particles m = Some buf ->
  NoDup keys -> (i < List.length keys)%nat ->
  currentShape m = nth i keys ""%string ->
  autoMorphDuration (settings m) < now - lastMorphTime m ->
  0 < morphDuration (settings m) / animationSpeed (settings m) ->
  Forall (Qle 0) dts ->
  morphDuration (settings m) / animationSpeed (settings m) <= total_time dts ->
  let m' := run random ease (AnimationFrame now :: ticks dts) m in
  idle m' /\ lastMorphTime m' = now /\ models m' = models m /\
  currentShape m' = nth ((i + 1) mod List.length keys) keys ""%string.
Proof.
  intros keys Hidle Hauto Hbuf Hnd Hi Hcur Hdue Hdur Hpos Hcover.
  assert (Hne : models m <> []).
  { intros E. unfold keys in Hi. rewrite E in Hi. simpl in Hi. lia. }
  assert (Hn : (0 < List.length keys)%nat) by lia.
  assert (Hidx : indexOf keys (currentShape m) = Z.of_nat i).
  { rewrite Hcur. unfold indexOf. now rewrite indexOf_from_nth. }
  assert (Hnext : at_index keys
            (Js.rem (indexOf keys (currentShape m) + 1)
                    (Z.of_nat (List.length keys))) =
          nth ((i + 1) mod List.length keys) keys ""%string).
  { rewrite Hidx. unfold Js.rem. rewrite Z.rem_mod_nonneg by lia.
    replace (Z.of_nat i + 1)%Z with (Z.of_nat (i + 1)) by lia.
    rewrite <- Nat2Z.inj_mod. unfold at_index.
    destruct (Z.of_nat ((i + 1) mod List.length keys) <? 0)%Z eqn:E;
      [apply Z.ltb_lt in E; lia|].
    rewrite Nat2Z.id. apply nth_indep. apply Nat.mod_upper_bound. lia. }
  destruct (auto_morph_round random ease m buf now dts
              (nth ((i + 1) mod List.length keys) keys ""%string))
    as (H1 & H2 & H3 & H4 & _); auto.
  apply obj_get_of_key. apply nth_In. apply Nat.mod_upper_bound. fold keys. lia.
Qed.

End MoreProperties.

(** ** Loading and normalising a model *)

Section LoaderProperties.

Import Shader Loader.

Variable sample : Geometry -> nat -> vec3.

Lemma Qmin_cases (a b : Q) :
  (Qmin a b = a /\ a <= b) \/ (Qmin a b = b /\ b <= a).
Proof.
  unfold Qmin, GenericMinMax.gmin.
  destruct (a ?= b) eqn:E.
  - left. split; [reflexivity|]. apply Qeq_alt in E. lra.
  - left. split; [reflexivity|]. apply Qlt_alt in E. lra.
  - right. split; [reflexivity|]. apply Qgt_alt in E. lra.
Qed.

Lemma Qmax_cases (a b : Q) :
  (Qmax a b = a /\ b <= a) \/ (Qmax a b = b /\ a <= b).
Proof.
  unfold Qmax, GenericMinMax.gmax.
  destruct (a ?= b) eqn:E.
  - left. split; [reflexivity|]. apply Qeq_alt in E. lra.
  - right. split; [reflexivity|]. apply Qlt_alt in E. lra.
  - left. split; [reflexivity|]. apply Qgt_alt in E. lra.
Qed.

Lemma coord_expand (a : axis) (b : Box3) (p : vec3) :
  coord a (bmin (expandByPoint b p)) = Qmin (coord a (bmin b)) (coord a p) /\
  coord a (bmax (expandByPoint b p)) = Qmax (coord a (bmax b)) (coord a p).
Proof. destruct a; split; reflexivity. Qed.

(** The box grown over [rest]: it contains the box it started from and the
    points of [rest], and each of its faces passes through the old face or
    through one of the points. *)
Lemma expand_spec (a : axis) (rest : list vec3) : forall b,
  let b' := fold_left expandByPoint rest b in
  (coord a (bmin b') <= coord a (bmin b) /\
   coord a (bmax b) <= coord a (bmax b')) /\
  (forall v, In v rest ->
     coord a (bmin b') <= coord a v /\ coord a v <= coord a (bmax b')) /\
  (coord a (bmin b') = coord a (bmin b) \/
   exists v, In v rest /\ coord a (bmin b') = coord a v) /\
  (coord a (bmax b') = coord a (bmax b) \/
   exists v, In v rest /\ coord a (bmax b') = coord a v).
Proof.
  induction rest as [|p rest IH]; intros b; simpl.
  - repeat split; try lra; try tauto; now left.
  - destruct (IH (expandByPoint b p)) as ((Hlo & Hhi) & Hin & Hmin & Hmax).
    destruct (coord_expand a b p) as [Emin Emax].
    rewrite Emin in *. rewrite Emax in *.
    destruct (Qmin_cases (coord a (bmin b)) (coord a p)) as [[E1 L1] | [E1 L1]];
      destruct (Qmax_cases (coord a (bmax b)) (coord a p)) as [[E2 L2] | [E2 L2]];
      rewrite E1 in *; rewrite E2 in *;
      (split; [split; lra|]);
      (split; [intros v [<- | Hv]; [lra | apply Hin, Hv]|]);
      split;
      match goal with
      | H : ?x = _ \/ _ |- ?x = _ \/ _ =>
          destruct H as [H | (v & Hv & H)];
            [ first [ left; exact H
                    | right; exists p; split; [now left | exact H] ]
            | right; exists v; split; [now right | exact H] ]
      end.
Qed.

(** The bounding box of a geometry with a vertex: every vertex lies between
    its corners, and each face touches a vertex. *)
Lemma box_spec (a : axis) (g : Geometry) (box : Box3) :
  computeBoundingBox g = Some box ->
  (forall v, In v g ->
     coord a (bmin box) <= coord a v /\ coord a v <= coord a (bmax box)) /\
  (exists v, In v g /\ coord a (bmin box) = coord a v) /\
  (exists v, In v g /\ coord a (bmax box) = coord a v).
Proof.
  destruct g as [|v0 rest]; simpl; [discriminate|].
  intros H. injection H as <-.
  destruct (expand_spec a rest (mkBox3 v0 v0))
    as ((Hlo & Hhi) & Hin & Hmin & Hmax).
  simpl in *. split; [|split].
  - intros v [<- | Hv]; [split; assumption | apply Hin, Hv].
  - destruct Hmin as [E | (v & Hv & E)];
      [exists v0; split; [now left | exact E]
      | exists v; split; [now right | exact E]].
  - destruct Hmax as [E | (v & Hv & E)];
      [exists v0; split; [now left | exact E]
      | exists v; split; [now right | exact E]].
Qed.

(** The box of the image of a geometry under a map that acts on each
    coordinate by a monotone function is the image of the box. *)
Lemma box_of_image (a : axis) (F : vec3 -> vec3) (f : Q -> Q)
      (g : Geometry) (box : Box3) :
  (forall v, coord a (F v) = f (coord a v)) ->
  (forall x y, x <= y -> f x <= f y) ->
  computeBoundingBox g = Some box ->
  exists box', computeBoundingBox (map F g) = Some box' /\
               coord a (bmin box') == f (coord a (bmin box)) /\
               coord a (bmax box') == f (coord a (bmax box)).
Proof.
  intros HF Hmono Hbox.
  destruct (computeBoundingBox (map F g)) as [box'|] eqn:Hbox'.
  2:{ destruct g; simpl in *; discriminate. }
  exists box'. split; [reflexivity|].
  destruct (box_spec a g box Hbox) as (Hin & (vm & Hvm & Em) & (vM & HvM & EM)).
  destruct (box_spec a (map F g) box' Hbox')
    as (Hin' & (wm & Hwm & Em') & (wM & HwM & EM')).
  apply in_map_iff in Hwm as (um & <- & Hum).
  apply in_map_iff in HwM as (uM & <- & HuM).
  rewrite HF in Em', EM'.
  destruct (Hin' (F vm) (in_map F g vm Hvm)) as [Hlo _].
  destruct (Hin' (F vM) (in_map F g vM HvM)) as [_ Hhi].
  rewrite HF in Hlo, Hhi. rewrite <- Em in Hlo. rewrite <- EM in Hhi.
  pose proof (Hmono _ _ (proj1 (Hin um Hum))) as H1.
  pose proof (Hmono _ _ (proj2 (Hin uM HuM))) as H2.
  rewrite <- Em' in H1. rewrite <- EM' in H2.
  split; lra.
Qed.

Lemma coord_vscale (a : axis) (v : vec3) (k : Q) :
  coord a (vscale v k) = coord a v * k.
Proof. destruct a; reflexivity. Qed.

Lemma coord_vsub (a : axis) (v c : vec3) :
  coord a (vsub v c) = coord a v - coord a c.
Proof. destruct a; reflexivity. Qed.

Lemma coord_vadd (a : axis) (v c : vec3) :
  coord a (vadd v c) = coord a v + coord a c.
Proof. destruct a; reflexivity. Qed.

Lemma box_is_ordered (a : axis) (g : Geometry) (box : Box3) :
  computeBoundingBox g = Some box -> coord a (bmin box) <= coord a (bmax box).
Proof.
  intros Hbox. destruct (box_spec a g box Hbox) as (Hin & (v & Hv & _) & _).
  destruct (Hin v Hv). lra.
Qed.

(** [maxDim] is the largest of the three sizes. *)
Lemma maxDim_spec (g : Geometry) :
  (forall a, coord a (getSize (computeBoundingBox g)) <= maxDim g) /\
  (exists a, maxDim g = coord a (getSize (computeBoundingBox g))).
Proof.
  unfold maxDim. set (size := getSize (computeBoundingBox g)).
  destruct (Qmax_cases (vx size) (vy size)) as [[E1 L1] | [E1 L1]];
    destruct (Qmax_cases (Qmax (vx size) (vy size)) (vz size))
      as [[E2 L2] | [E2 L2]];
    rewrite E2; rewrite ?E1 in *; split;
    try (intros [| |]; simpl; lra).
  - now exists X.
  - now exists Z.
  - now exists Y.
  - now exists Z.
Qed.

Lemma size_of_image (F : vec3 -> vec3) (f : axis -> Q -> Q) (k : Q)
      (g : Geometry) :
  0 <= k ->
  (forall a v, coord a (F v) = f a (coord a v)) ->
  (forall a x y, f a y - f a x == k * (y - x)) ->
  forall a, coord a (getSize (computeBoundingBox (map F g))) ==
            k * coord a (getSize (computeBoundingBox g)).
Proof.
  intros Hk HF Hslope a.
  destruct (computeBoundingBox g) as [box|] eqn:Hbox.
  - destruct (box_of_image a F (f a) g box (HF a)) as (box' & Hbox' & Em & EM);
      [|exact Hbox|].
    + intros x y Hxy. pose proof (Hslope a x y). nra.
    + rewrite Hbox'. simpl. rewrite !coord_vsub, Em, EM. apply Hslope.
  - destruct g; [|discriminate]. simpl. destruct a; simpl; ring.
Qed.

Lemma maxDim_of_image (F : vec3 -> vec3) (f : axis -> Q -> Q) (k : Q)
      (g : Geometry) :
  0 <= k ->
  (forall a v, coord a (F v) = f a (coord a v)) ->
  (forall a x y, f a y - f a x == k * (y - x)) ->
  maxDim (map F g) == k * maxDim g.
Proof.
  intros Hk HF Hslope.
  pose proof (size_of_image F f k g Hk HF Hslope) as Hsize.
  destruct (maxDim_spec g) as (Hle & a & Ea).
  destruct (maxDim_spec (map F g)) as (Hle' & a' & Ea').
  pose proof (Hle a') as H1. pose proof (Hle' a) as H2.
  pose proof (Hsize a) as S1. pose proof (Hsize a') as S2.
  rewrite <- Ea in S1. rewrite <- Ea' in S2.
  apply Qle_antisym; nra.
Qed.

Lemma maxDim_nonneg (g : Geometry) : 0 <= maxDim g.
Proof.
  destruct (maxDim_spec g) as (Hle & _). specialize (Hle X).
  destruct (computeBoundingBox g) as [box|] eqn:Hbox; simpl in Hle.
  - pose proof (box_is_ordered X g box Hbox). simpl in *. lra.
  - exact Hle.
Qed.

(** The geometry [normalizeMesh] hands to [center]: no side of its box is
    longer than the target size, and the longest has that size when the
    input has any extent. *)
Lemma scaled_size (g : Geometry) (targetSize : Q) :
  0 <= targetSize ->
  let g1 := if Qlt_bool 0 (maxDim g)
            then scale g (targetSize / maxDim g) else g in
  (forall a, coord a (getSize (computeBoundingBox g1)) <= targetSize) /\
  (0 < maxDim g -> maxDim g1 == targetSize).
Proof.
  intros HT. cbv zeta.
  destruct (Qlt_bool 0 (maxDim g)) eqn:Hpos.
  - apply Qlt_bool_iff in Hpos.
    assert (Hk : 0 <= targetSize / maxDim g)
      by (apply Qle_shift_div_l; lra).
    assert (Hmax : maxDim (scale g (targetSize / maxDim g)) == targetSize).
    { unfold scale.
      rewrite (maxDim_of_image _ (fun _ x => x * (targetSize / maxDim g))
                 (targetSize / maxDim g) g Hk).
      - field. lra.
      - intros a v. apply coord_vscale.
      - intros a x y. ring. }
    split; [|intros _; exact Hmax].
    intros a. destruct (maxDim_spec (scale g (targetSize / maxDim g)))
      as (Hle & _).
    specialize (Hle a). lra.
  - split.
    + intros a. destruct (maxDim_spec g) as (Hle & _). specialize (Hle a).
      assert (maxDim g <= 0).
      { apply Qnot_lt_le. intros H. apply Qlt_bool_iff in H. congruence. }
      lra.
    + intros H. apply Qlt_bool_iff in H. congruence.
Qed.

(** X9.  [normalizeMesh] with a non-negative target size leaves a geometry
    of as many vertices, all of them inside the cube of that side about the
    origin, with the centre of its bounding box at the origin; when the input
    has any extent, the longest side of the box is exactly the target
    size. *)
Theorem X9_normalizeMesh_fits_and_centres (g : Geometry) (targetSize : Q) :
  0 <= targetSize ->
  let g' := normalizeMesh g targetSize in
  List.length g' = List.length g /\
  (forall v a, In v g' ->
     - (targetSize * (1 # 2)) <= coord a v /\ coord a v <= targetSize * (1 # 2)) /\
  (forall a, coord a (getCenter (computeBoundingBox g')) == 0) /\
  (0 < maxDim g -> maxDim g' == targetSize).
Proof.
  intros HT. cbv zeta. unfold normalizeMesh.
  destruct (scaled_size g targetSize HT) as [Hsize Hmax].
  set (g1 := if Qlt_bool 0 (maxDim g)
             then scale g (targetSize / maxDim g) else g) in *.
  assert (Hlen1 : List.length g1 = List.length g).
  { unfold g1, scale. destruct (Qlt_bool 0 (maxDim g));
      [apply length_map | reflexivity]. }
  unfold center. set (c := getCenter (computeBoundingBox g1)).
  split; [now rewrite length_map|]. split; [|split].
  - intros v a Hv. apply in_map_iff in Hv as (v1 & <- & Hv1).
    rewrite coord_vsub.
    destruct (computeBoundingBox g1) as [box|] eqn:Hbox.
    + destruct (box_spec a g1 box Hbox) as (Hin & _).
      destruct (Hin v1 Hv1) as [Hlo Hhi].
      specialize (Hsize a). simpl in Hsize. rewrite coord_vsub in Hsize.
      unfold c. simpl. rewrite coord_vscale, coord_vadd. split; lra.
    + destruct g1; [destruct Hv1 | discriminate].
  - intros a.
    destruct (computeBoundingBox g1) as [box|] eqn:Hbox.
    + destruct (box_of_image a (fun v => vsub v c) (fun x => x - coord a c)
                  g1 box) as (box' & Hbox' & Em & EM).
      * intros v. apply coord_vsub.
      * intros x y Hxy. lra.
      * exact Hbox.
      * rewrite Hbox'. simpl. rewrite coord_vscale, coord_vadd, Em, EM.
        unfold c. simpl. rewrite coord_vscale, coord_vadd. ring.
    + destruct g1; [|discriminate]. simpl. destruct a; reflexivity.
  - intros Hpos.
    rewrite (maxDim_of_image (fun v => vsub v c) (fun a x => x - coord a c) 1 g1).
    + rewrite (Hmax Hpos). ring.
    + lra.
    + intros a v. apply coord_vsub.
    + intros a x y. ring.
Qed.

(** ** Choosing the mesh and laying out the samples *)

Lemma pick_from (traversal : list Object3D) : forall acc,
  (forall c, In c traversal -> isMesh c = false) ->
  fold_left (fun mesh child => if isMesh child then Some child else mesh)
            traversal acc = acc.
Proof.
  induction traversal as [|c rest IH]; intros acc Hno; simpl; [reflexivity|].
  rewrite (Hno c) by now left. apply IH. intros c' Hc'. apply Hno. now right.
Qed.

Lemma pick_last (before after : list Object3D) (mesh : Object3D) :
  isMesh mesh = true ->
  (forall c, In c after -> isMesh c = false) ->
  pick_mesh (before ++ mesh :: after) = Some mesh.
Proof.
  intros Hmesh Hafter. unfold pick_mesh.
  rewrite fold_left_app. simpl. rewrite Hmesh. now apply pick_from.
Qed.

Lemma sample_loop_length (g : Geometry) (count : nat) : forall i,
  List.length (sample_loop sample g count i) = (3 * count)%nat.
Proof.
  induction count as [|k IH]; intros i; simpl; [reflexivity|].
  rewrite IH. lia.
Qed.

Lemma sample_loop_nth (g : Geometry) (count : nat) : forall i k,
  (k < count)%nat ->
  nth (3 * k) (sample_loop sample g count i) 0 = vx (sample g (i + k)) /\
  nth (3 * k + 1) (sample_loop sample g count i) 0 = vy (sample g (i + k)) /\
  nth (3 * k + 2) (sample_loop sample g count i) 0 = vz (sample g (i + k)).
Proof.
  induction count as [|n IH]; intros i k Hk; [lia|].
  destruct k as [|k].
  - simpl. rewrite Nat.add_0_r. repeat split.
  - destruct (IH (S i) k) as (Hx & Hy & Hz); [lia|].
    replace (i + S k)%nat with (S i + k)%nat by lia.
    replace (3 * S k)%nat with (S (S (S (3 * k)))) by lia.
    simpl nth. simpl in Hx, Hy, Hz. repeat split; assumption.
Qed.

(** X10.  [load] resolves to [null] when the loader reports an error and
    when the object has no mesh among its nodes.  Otherwise it samples the
    mesh visited last, after normalising it to the size 20: earlier meshes of
    the same file do not contribute, and the cloud has three numbers per
    particle. *)
Theorem X10_load_samples_the_last_mesh
  (before after : list Object3D) (mesh : Object3D) (particleCount : nat) :
  isMesh mesh = true ->
  (forall c, In c after -> isMesh c = false) ->
  load sample Failed particleCount = None /\
  (forall traversal, (forall c, In c traversal -> isMesh c = false) ->
                     load sample (Loaded traversal) particleCount = None) /\
  load sample (Loaded (before ++ mesh :: after)) particleCount =
    Some (samplePointsOnSurface sample (normalizeMesh (geometry mesh) 20)
            particleCount) /\
  (forall cloud,
     load sample (Loaded (before ++ mesh :: after)) particleCount = Some cloud ->
     List.length cloud = (3 * particleCount)%nat).
Proof.
  intros Hmesh Hafter. split; [reflexivity|]. split; [|split].
  - intros traversal Hno. unfold load, pick_mesh.
    now rewrite pick_from.
  - unfold load. now rewrite pick_last.
  - intros cloud. unfold load. rewrite pick_last by assumption.
    intros H. injection H as <-. apply sample_loop_length.
Qed.

(** X11.  The cloud [samplePointsOnSurface] returns has three entries per
    particle: particle [k] occupies the entries [3k], [3k+1], [3k+2], which
    hold the x, y and z of the [k]-th point the sampler gave. *)
Theorem X11_cloud_layout (g : Geometry) (count k : nat) :
  (k < count)%nat ->
  let cloud := samplePointsOnSurface sample g count in
  List.length cloud = (3 * count)%nat /\
  nth (3 * k) cloud 0 = vx (sample g k) /\
  nth (3 * k + 1) cloud 0 = vy (sample g k) /\
  nth (3 * k + 2) cloud 0 = vz (sample g k).
Proof.
  intros Hk. cbv zeta. unfold samplePointsOnSurface.
  split; [apply sample_loop_length|].
  apply (sample_loop_nth g count 0 k Hk).
Qed.

End LoaderProperties.

(** ** From the files to the library *)

Section FilesProperties.

Variable random : nat -> Q.
Variable ease : Q -> Q.
Variable sample : Loader.Geometry -> nat -> Shader.vec3.

Lemma load_length (result : Loader.LoadResult) (n : nat) cloud :
  Loader.load sample result n = Some cloud ->
  List.length cloud = (3 * n)%nat.
Proof.
  unfold Loader.load. destruct result as [traversal|]; [|discriminate].
  destruct (Loader.pick_mesh traversal); [|discriminate].
  intros H. injection H as <-. apply sample_loop_length.
Qed.

(** X12.  Every cloud in the library has the length of the position buffer,
    at any moment after [init] and whatever the two files contained: only
    the names ["queen"] and ["pawn"] are ever registered, each with the
    [3 * particleCount] numbers [load] sampled for it, so a tween to a
    registered shape moves every coordinate of every particle. *)
Theorem X12_library_clouds_match_the_buffer
  (s : ParticleSettings) (queenFile pawnFile : Loader.LoadResult)
  (evs : list Event) (shape : string) (cloud : Float32Array) :
  let m := run random ease evs
             (boot_from_files random sample s queenFile pawnFile) in
  obj_get (models m) shape = Some cloud ->
  (shape = "queen"%string \/ shape = "pawn"%string) /\
  List.length cloud = (3 * particleCount s)%nat /\
  same_length_as_buffer m cloud.
Proof.
  cbv zeta. unfold boot_from_files. intros Hget.
  rewrite run_models in Hget.
  destruct (booted_buffer random ease s
              (Loader.load sample queenFile (particleCount s))
              (Loader.load sample pawnFile (particleCount s)) evs)
    as (_ & buf & Hbuf & Hlen).
  unfold boot, init in Hget.
  match type of Hget with
  | context [morphTo random ?k ?m0] =>
      destruct (morphTo_frame random k m0) as (_ & _ & Hm & _)
  end.
  rewrite Hm in Hget.
  destruct (loadModels_lookup (setupParticles random (construct s))
              (Loader.load sample queenFile (particleCount s))
              (Loader.load sample pawnFile (particleCount s)) eq_refl)
    as (_ & Hq & Hp & Hother).
  assert (Hcloud : (shape = "queen"%string \/ shape = "pawn"%string) /\
                   List.length cloud = (3 * particleCount s)%nat).
  { destruct (string_dec shape "queen") as [-> | Hnq].
    - rewrite Hq in Hget. split; [now left | now apply load_length in Hget].
    - destruct (string_dec shape "pawn") as [-> | Hnp].
      + rewrite Hp in Hget. split; [now right | now apply load_length in Hget].
      + rewrite (Hother shape Hnq Hnp) in Hget. discriminate. }
  destruct Hcloud as [Hname Hl]. repeat split; try assumption.
  exists buf. split; [exact Hbuf | congruence].
Qed.

End FilesProperties.

(** ** The pointer and the camera *)

(** X13.  [updateMouse] maps a pointer inside the window onto the square
    [-1, 1] x [-1, 1], left edge to -1 and top edge to +1, and loses nothing:
    the pixel can be read back from the result.  The value [(-100, -100)]
    that [resetMouse] stores is therefore never the image of a pointer on
    the page. *)
Theorem X13_pointer_maps_into_the_unit_square
  (w : Pointer.Window) (x y : Q) :
  0 < Pointer.innerWidth w -> 0 < Pointer.innerHeight w ->
  0 <= x <= Pointer.innerWidth w -> 0 <= y <= Pointer.innerHeight w ->
  let p := Pointer.updateMouse w x y in
  (-1 <= Pointer.px p /\ Pointer.px p <= 1) /\
  (-1 <= Pointer.py p /\ Pointer.py p <= 1) /\
  (Pointer.px p + 1) * (1 # 2) * Pointer.innerWidth w == x /\
  (1 - Pointer.py p) * (1 # 2) * Pointer.innerHeight w == y /\
  ~ Pointer.px p == Pointer.px (Pointer.resetMouse p).
Proof.
  intros HW HH [Hx0 Hx1] [Hy0 Hy1]. cbv zeta. unfold Pointer.updateMouse. simpl.
  assert (Hqx : 0 <= x / Pointer.innerWidth w /\ x / Pointer.innerWidth w <= 1).
  { split; [apply Qle_shift_div_l | apply Qle_shift_div_r]; lra. }
  assert (Hqy : 0 <= y / Pointer.innerHeight w /\ y / Pointer.innerHeight w <= 1).
  { split; [apply Qle_shift_div_l | apply Qle_shift_div_r]; lra. }
  repeat split; try lra.
  - field. lra.
  - field. lra.
Qed.

(** X14.  [updateCameraPosition] keeps the camera on the line x = 0,
    y = 10, never nearer than 40, and far enough for the 25 units of
    [targetDim] to fit the smaller side of the view: its height in a
    landscape window, its width in a portrait one.  With a half-angle
    tangent of at least 5/16, as for the 45 degrees the camera is built
    with, a landscape window always gets the distance 40. *)
Theorem X14_camera_keeps_the_model_in_view (tanHalfFov aspect : Q) :
  0 < tanHalfFov -> 0 < aspect ->
  let p := Camera.updateCameraPosition tanHalfFov aspect in
  Shader.vx p = 0 /\ Shader.vy p = 10 /\ 40 <= Shader.vz p /\
  (1 <= aspect -> Camera.targetDim <= 2 * Shader.vz p * tanHalfFov) /\
  (aspect < 1 -> Camera.targetDim <= 2 * Shader.vz p * tanHalfFov * aspect) /\
  (1 <= aspect -> 5 # 16 <= tanHalfFov -> Shader.vz p == 40).
Proof.
  intros Ht Ha. cbv zeta. unfold Camera.updateCameraPosition. simpl.
  set (d := Camera.fitDistance tanHalfFov aspect).
  pose proof (Q.le_max_l d 40) as Hd. pose proof (Q.le_max_r d 40) as H40.
  split; [reflexivity|]. split; [reflexivity|]. split; [exact H40|].
  unfold Camera.targetDim in *.
  set (z := Qmax d 40) in *.
  assert (Hzt : 0 <= (z - d) * tanHalfFov)
    by (apply Qmult_le_0_compat; lra).
  split; [|split].
  - intros Hland. apply Qle_bool_iff in Hland.
    assert (E : d * (2 * tanHalfFov) == 25).
    { unfold d, Camera.fitDistance, Camera.targetDim. rewrite Hland.
      field. lra. }
    nra.
  - intros Hport.
    assert (Hb : Qle_bool 1 aspect = false).
    { destruct (Qle_bool 1 aspect) eqn:E; [|reflexivity].
      apply Qle_bool_iff in E. lra. }
    assert (E : d * (aspect * 2 * tanHalfFov) == 25).
    { unfold d, Camera.fitDistance, Camera.targetDim. rewrite Hb.
      field. split; lra. }
    assert (Hzta : 0 <= (z - d) * tanHalfFov * aspect)
      by (apply Qmult_le_0_compat; lra).
    nra.
  - intros Hland Hwide. apply Qle_bool_iff in Hland.
    assert (E : d * (2 * tanHalfFov) == 25).
    { unfold d, Camera.fitDistance, Camera.targetDim. rewrite Hland.
      field. lra. }
    assert (Hle : d <= 40).
    { apply Qnot_lt_le. intros Hgt.
      assert (0 < (d - 40) * tanHalfFov) by (apply Qmult_lt_0_compat; lra).
      nra. }
    unfold z. apply Q.max_r. exact Hle.
Qed.

(** ** More on the interaction field *)

Section FieldProperties.

Variables gl_sin gl_cos gl_sqrt : Q -> Q.

Lemma clamp_unit (q : Q) : 0 <= Shader.clamp q 0 1 /\ Shader.clamp q 0 1 <= 1.
Proof.
  unfold Shader.clamp.
  pose proof (Q.le_max_r q 0). pose proof (Q.le_min_r (Qmax q 0) 1).
  destruct (Q.min_spec (Qmax q 0) 1) as [[_ E] | [_ E]]; lra.
Qed.

Lemma clamp_mono (p q : Q) :
  p <= q -> Shader.clamp p 0 1 <= Shader.clamp q 0 1.
Proof.
  intros H. unfold Shader.clamp.
  destruct (Q.max_spec p 0) as [[? E1] | [? E1]];
    destruct (Q.max_spec q 0) as [[? E2] | [? E2]];
    destruct (Q.min_spec (Qmax p 0) 1) as [[? E3] | [? E3]];
    destruct (Q.min_spec (Qmax q 0) 1) as [[? E4] | [? E4]]; lra.
Qed.

Lemma hermite_mono (s t : Q) :
  0 <= s -> s <= t -> t <= 1 ->
  s * s * (3 - 2 * s) <= t * t * (3 - 2 * t).
Proof.
  intros H0 Hst H1.
  assert (A1 : 0 <= s * (1 - s)) by (apply Qmult_le_0_compat; lra).
  assert (A2 : 0 <= t * (1 - t)) by (apply Qmult_le_0_compat; lra).
  assert (A3 : 0 <= s * (1 - t)) by (apply Qmult_le_0_compat; lra).
  assert (A4 : 0 <= t * (1 - s)) by (apply Qmult_le_0_compat; lra).
  assert (B : 0 <= (t - s)
                   * (2 * (s * (1 - s)) + 2 * (t * (1 - t))
                      + (s * (1 - t) + t * (1 - s))))
    by (apply Qmult_le_0_compat; lra).
  assert (E : t * t * (3 - 2 * t) - s * s * (3 - 2 * s)
              == (t - s)
                 * (2 * (s * (1 - s)) + 2 * (t * (1 - t))
                    + (s * (1 - t) + t * (1 - s)))) by ring.
  lra.
Qed.

Lemma ramp_falls (edge x y : Q) :
  0 < edge -> x <= y -> (y - edge) / (0 - edge) <= (x - edge) / (0 - edge).
Proof.
  intros He Hxy.
  assert (Ex : (x - edge) / (0 - edge) == 1 - x / edge) by (field; lra).
  assert (Ey : (y - edge) / (0 - edge) == 1 - y / edge) by (field; lra).
  assert (x / edge <= y / edge).
  { unfold Qdiv. apply Qmult_le_compat_r; [exact Hxy|].
    apply Qlt_le_weak, Qinv_lt_0_compat, He. }
  lra.
Qed.

Lemma smoothstep_falls (edge x y : Q) :
  0 < edge -> x <= y ->
  Shader.smoothstep edge 0 y <= Shader.smoothstep edge 0 x.
Proof.
  intros He Hxy. unfold Shader.smoothstep. cbv zeta.
  pose proof (clamp_mono _ _ (ramp_falls edge x y He Hxy)) as Hm.
  destruct (clamp_unit ((y - edge) / (0 - edge))) as [Hy0 _].
  destruct (clamp_unit ((x - edge) / (0 - edge))) as [_ Hx1].
  now apply hermite_mono.
Qed.

Lemma smoothstep_inside (edge x : Q) :
  0 < edge -> x < edge -> 0 < Shader.smoothstep edge 0 x.
Proof.
  intros He Hx. unfold Shader.smoothstep. cbv zeta.
  set (q := (x - edge) / (0 - edge)).
  assert (Eq : q == 1 - x / edge) by (unfold q; field; lra).
  assert (Hq : 0 < q).
  { assert (x / edge < 1) by (apply Qlt_shift_div_r; lra). lra. }
  assert (Ht : 0 < Shader.clamp q 0 1).
  { unfold Shader.clamp.
    destruct (Q.max_spec q 0) as [[? E1] | [? E1]];
      destruct (Q.min_spec (Qmax q 0) 1) as [[? E2] | [? E2]]; lra. }
  destruct (clamp_unit q) as [_ H1]. nra.
Qed.

Lemma smoothstep_at_zero (edge x : Q) :
  0 < edge -> x == 0 -> Shader.smoothstep edge 0 x == 1.
Proof.
  intros He Hx. unfold Shader.smoothstep. cbv zeta.
  set (q := (x - edge) / (0 - edge)).
  assert (Eq : q == 1) by (unfold q; rewrite Hx; field; lra).
  assert (Ht : Shader.clamp q 0 1 == 1).
  { unfold Shader.clamp.
    destruct (Q.max_spec q 0) as [[? E1] | [? E1]];
      destruct (Q.min_spec (Qmax q 0) 1) as [[? E2] | [? E2]]; lra. }
  rewrite Ht. ring.
Qed.

(** X16.  For a positive radius and a noise that is not negative, the
    falloff does not grow with the distance from the pointer: of two
    vertices with the same noise, the one farther away gets the smaller or
    equal weight. *)
Theorem X16_falloff_decreases_with_distance
  (u : Shader.Uniforms) (near far : Shader.vec3) (aRandom : Q) :
  let world p :=
    Shader.xyz (Shader.mat_mul (Shader.modelMatrix u)
      (Shader.mkVec4 (Shader.vx p) (Shader.vy p) (Shader.vz p) 1)) in
  0 < Shader.uRadius u -> 0 <= aRandom ->
  Shader.distance gl_sqrt (world near) (Shader.uMouse u)
    <= Shader.distance gl_sqrt (world far) (Shader.uMouse u) ->
  Shader.falloff gl_sqrt u far aRandom <= Shader.falloff gl_sqrt u near aRandom.
Proof.
  intros world Hr Hn Hd. unfold Shader.falloff. cbv zeta.
  apply smoothstep_falls; [nra | exact Hd].
Qed.

(** X17.  For a positive radius and a noise that is not negative, a vertex
    nearer to the pointer than [radius * 1.2] has a positive falloff, so the
    branch that displaces it runs; a vertex at distance 0 has falloff 1. *)
Theorem X17_vertices_near_the_pointer_are_displaced
  (u : Shader.Uniforms) (position : Shader.vec3) (aRandom : Q) :
  let dist :=
    Shader.distance gl_sqrt
      (Shader.xyz (Shader.mat_mul (Shader.modelMatrix u)
         (Shader.mkVec4 (Shader.vx position) (Shader.vy position)
                        (Shader.vz position) 1)))
      (Shader.uMouse u) in
  0 < Shader.uRadius u -> 0 <= aRandom ->
  dist < Shader.uRadius u * (12 # 10) ->
  0 < Shader.falloff gl_sqrt u position aRandom /\
  Qlt_bool 0 (Shader.falloff gl_sqrt u position aRandom) = true /\
  (dist == 0 -> Shader.falloff gl_sqrt u position aRandom == 1).
Proof.
  intros dist Hr Hn Hd.
  assert (Hpos : 0 < Shader.falloff gl_sqrt u position aRandom).
  { unfold Shader.falloff. cbv zeta. fold dist.
    apply smoothstep_inside; nra. }
  split; [exact Hpos|]. split; [now apply Qlt_bool_iff|].
  intros Hz. unfold Shader.falloff. cbv zeta. fold dist.
  apply smoothstep_at_zero; [nra | exact Hz].
Qed.

End FieldProperties.

(** * The further properties at work *)

Lemma X1_witness :
  exists buf,
    particles (setupParticles Sample.random (construct Sample.settings2)) = Some buf /\
    List.length buf = 6%nat /\
    nth 3 buf 0 = (Sample.random 7 - (1 # 2)) * 500 /\
    -250 <= nth 3 buf 0 /\ nth 3 buf 0 <= 250 /\
    randomCalls (setupParticles Sample.random (construct Sample.settings2)) = 20%nat.
Proof.
  apply (X1_start_cloud_in_cube Sample.random (construct Sample.settings2) 3).
  - vm_compute. lia.
  - vm_compute. split; [discriminate | reflexivity].
Defined.

Lemma X3_witness :
  Object_keys (models (loadModels (Some Sample.queen_cloud) None Scene.fresh))
  = ["queen"%string].
Proof.
  apply (X3_loadModels_registers_in_order Scene.fresh
           (Some Sample.queen_cloud) None).
  reflexivity.
Defined.

Lemma X4_witness :
  let busy := morphTo Sample.random "pawn" Sample.at_queen in
  let slowed := step Sample.random Sample.ease (SpeedInput (1 # 2)) busy in
  completed_with "pawn" slowed
    (run Sample.random Sample.ease (ticks [3]) slowed).
Proof.
  eapply (X4_speed_applies_to_later_morphs_only Sample.random Sample.ease
            Sample.at_queen "pawn" _ (1 # 2) [3]).
  - split; reflexivity.
  - reflexivity.
  - right. discriminate.
  - reflexivity.
  - reflexivity.
  - repeat constructor; discriminate.
  - vm_compute. discriminate.
Defined.

Lemma X5_witness :
  idle (run Sample.random Sample.ease
          [ShapeClick "queen"; AnimationFrame 6000; GsapTick 1;
           AutoMorphChange true 7000; AnimationFrame 20000]
          Sample.empty_installation).
Proof.
  apply (X5_nothing_moves_without_models Sample.random Sample.ease
           Sample.empty_installation
           [ShapeClick "queen"; AnimationFrame 6000; GsapTick 1;
            AutoMorphChange true 7000; AnimationFrame 20000]).
  - split; reflexivity.
  - reflexivity.
  - reflexivity.
Defined.

Lemma X6_witness :
  buffer_is
    (run Sample.random Sample.ease (ticks [1; 1])
       (morphTo Sample.random "queen" Sample.at_queen))
    Sample.queen_cloud.
Proof.
  apply (X6_morph_to_shown_shape_keeps_buffer Sample.random Sample.ease
           Sample.at_queen "queen" Sample.queen_cloud [1; 1]).
  - split; reflexivity.
  - eexists. split; [reflexivity|]. repeat constructor.
  - reflexivity.
  - discriminate.
Defined.

Lemma X7_witness :
  let final := run Sample.random Sample.ease
                 (ShapeClick explode :: ticks [1; 1; 1]) Scene.mid_pawn in
  currentShape final = explode /\
  console final = [explode; "pawn"; "queen"]%string /\
  buffer_is final (fst (getExplodePositions Sample.random Scene.mid_pawn)).
Proof.
  cbv zeta.
  pose (tw := hd (mkTween "" [] 0 0 None) (activeTweens Scene.mid_pawn)).
  pose (buf := match particles Scene.mid_pawn with Some b => b | None => [] end).
  destruct (X7_explode_during_morph_wins Sample.random Sample.ease
              Scene.mid_pawn tw buf 1 [1; 1]) as (_ & Hs & Hc & Hb).
  - reflexivity.
  - reflexivity.
  - reflexivity.
  - reflexivity.
  - vm_compute. discriminate.
  - reflexivity.
  - repeat constructor; intros H; vm_compute in H; discriminate.
  - repeat constructor; discriminate.
  - vm_compute. discriminate.
  - split; [exact Hs | split; [exact Hc | exact Hb]].
Defined.

Lemma X8_witness :
  currentShape
    (run Sample.random Sample.ease (AnimationFrame 6000 :: ticks [3])
       Sample.at_queen) = "pawn"%string.
Proof.
  eapply (X8_auto_morph_advances_round_the_ring Sample.random Sample.ease
            Sample.at_queen _ 6000 [3] 0).
  - split; reflexivity.
  - reflexivity.
  - reflexivity.
  - repeat constructor; simpl; intros H; repeat destruct H as [H | H];
      try discriminate; exact H.
  - vm_compute. lia.
  - reflexivity.
  - reflexivity.
  - reflexivity.
  - repeat constructor; discriminate.
  - vm_compute. discriminate.
Defined.

Lemma X9_witness :
  Loader.maxDim (Loader.normalizeMesh Scene.tetra 20) == 20.
Proof.
  apply (X9_normalizeMesh_fits_and_centres Scene.tetra 20).
  - discriminate.
  - reflexivity.
Defined.

Lemma X10_witness :
  Loader.load Scene.sample Scene.queen_file 2 =
  Some (Loader.samplePointsOnSurface Scene.sample
          (Loader.normalizeMesh Scene.tetra 20) 2).
Proof.
  apply (X10_load_samples_the_last_mesh Scene.sample
           [Scene.group; Scene.mesh_a] [Scene.group] Scene.mesh_b 2).
  - reflexivity.
  - intros c [<- | []]. reflexivity.
Defined.

Lemma X11_witness :
  nth 4 (Loader.samplePointsOnSurface Scene.sample Scene.tetra 3) 0 =
  Shader.vy (Scene.sample Scene.tetra 1).
Proof.
  apply (X11_cloud_layout Scene.sample Scene.tetra 3 1).
  lia.
Defined.

Lemma X12_witness :
  exists cloud,
    obj_get (models (run Sample.random Sample.ease [GsapTick 1]
                       (boot_from_files Sample.random Scene.sample
                          Sample.settings2 Scene.queen_file Scene.pawn_file)))
            "queen" = Some cloud /\
    List.length cloud = 6%nat.
Proof.
  eexists. split; [reflexivity|].
  eapply (X12_library_clouds_match_the_buffer Sample.random Sample.ease
            Scene.sample Sample.settings2 Scene.queen_file Scene.pawn_file
            [GsapTick 1] "queen").
  reflexivity.
Defined.

Lemma X13_witness :
  let p := Pointer.updateMouse Scene.window 960 270 in
  (-1 <= Pointer.px p /\ Pointer.px p <= 1) /\
  (-1 <= Pointer.py p /\ Pointer.py p <= 1).
Proof.
  cbv zeta.
  destruct (X13_pointer_maps_into_the_unit_square Scene.window 960 270)
    as (Hx & Hy & _).
  - reflexivity.
  - reflexivity.
  - split; discriminate.
  - split; discriminate.
  - split; [exact Hx | exact Hy].
Defined.

Lemma X14_witness :
  Shader.vz (Camera.updateCameraPosition (2 # 5) (16 # 9)) == 40.
Proof.
  apply (X14_camera_keeps_the_model_in_view (2 # 5) (16 # 9)).
  - reflexivity.
  - reflexivity.
  - discriminate.
  - discriminate.
Defined.

Lemma X16_witness :
  Shader.falloff Sample.gl_sqrt Sample.uniforms (Shader.mkVec3 2 0 0) (1 # 2)
  <= Shader.falloff Sample.gl_sqrt Sample.uniforms (Shader.mkVec3 1 0 0) (1 # 2).
Proof.
  apply (X16_falloff_decreases_with_distance Sample.gl_sqrt Sample.uniforms
           (Shader.mkVec3 1 0 0) (Shader.mkVec3 2 0 0) (1 # 2)).
  - reflexivity.
  - discriminate.
  - vm_compute. discriminate.
Defined.

Lemma X17_witness :
  0 < Shader.falloff Sample.gl_sqrt Sample.uniforms (Shader.mkVec3 1 0 0) (1 # 2).
Proof.
  apply (X17_vertices_near_the_pointer_are_displaced Sample.gl_sqrt
           Sample.uniforms (Shader.mkVec3 1 0 0) (1 # 2)).
  - reflexivity.
  - discriminate.
  - reflexivity.
Defined.

Lemma X18_witness :
  exists buf',
    particles (gsap_tick Sample.ease 1 Scene.mid_pawn) = Some buf' /\
    -1 <= nth 0 buf' 0 /\ nth 0 buf' 0 <= 1.
Proof.
  pose (tw := hd (mkTween "" [] 0 0 None) (activeTweens Scene.mid_pawn)).
  pose (buf := match particles Scene.mid_pawn with Some b => b | None => [] end).
  destruct (X18_tween_stays_between_start_and_target Sample.ease
              Scene.mid_pawn tw buf 1 0) as (buf' & Hp & Hmoved & _).
  - reflexivity.
  - reflexivity.
  - reflexivity.
  - reflexivity.
  - vm_compute. lia.
  - vm_compute. split; discriminate.
  - destruct Hmoved as [Hlo Hhi].
    { intros H. vm_compute in H. discriminate. }
    exists buf'. split; [exact Hp|]. split.
    + refine (Qle_trans _ _ _ _ Hlo). vm_compute. discriminate.
    + refine (Qle_trans _ _ _ Hhi _). vm_compute. discriminate.
Defined.
